(** * kdt::KDTree (kdtree.h): a shallow embedding and its properties

    The header defines one class template, [KDTree<PointT>], with a nested
    node type, a nested bounded priority queue and three recursive searches.

    Modelling choices, fixed once for the whole development:
    - [double] has two readings.  Everything that computes with
      coordinates -- [distance], the difference
      [fabs(query[axis] - train[axis])], and the three searches that
      consume them -- is embedded over the primitive type [float]: IEEE
      754 binary64 with round to nearest even, overflow to infinity,
      underflow, signed zeros and NaN, as the processor has them.  These
      functions are in module [B64], with the copy of [build] that gives
      the searches their tree.  Where the code only compares stored
      values -- [build], [validate], the queue -- the statements outside
      [B64] read a [double] as the real number it denotes, type [R]; no
      arithmetic is performed on [R].  In [B64] every operation rounds
      once, to binary64: no extended precision, no fused multiply-add.
    - [int] indices and sizes are [nat]: they are positions in vectors.
    - A [PointT] is the list of its coordinates, read with [coord];
      [PointT::DIM] is the section variable [DIM].
    - [Node*] is the inductive type [Node] with [nullptr] as a constructor.
    - [std::nth_element] is a section variable constrained by the
      postcondition the C++ standard gives it.
    - A call whose behaviour is undefined in C++ ([back()] of an empty
      vector) makes the embedded function return [None]; reading the
      uninitialised local [guess] is modelled by taking its content as an
      argument. *)

From Stdlib Require Import Floats QArith.
From Stdlib Require Import Rbase Rfunctions R_sqrt Lra.
From Stdlib Require Import List Permutation Sorted Arith Lia Bool.
Close Scope Q_scope.
From Equations Require Import Equations.
Import ListNotations.

Set Implicit Arguments.

(** ** Scalars *)

(** [a < b] on the real numbers two values of type [double] denote, as a
    boolean. *)
Definition Rltb (a b : R) : bool := if Rlt_dec a b then true else false.

(** ** Points *)

Definition Point : Type := list R.

(** [p[i]] *)
Definition coord (p : Point) (i : nat) : R := nth i p 0%R.

(** [points_[idx]] *)
Definition at_ (points_ : list Point) (idx : nat) : Point := nth idx points_ [].

(** ** BoundedPriorityQueue<T, Compare> *)

Section BoundedPriorityQueue.

Variable T : Type.
Variable Compare : T -> T -> bool.

Record BoundedPriorityQueue : Type := mkQueue
  { bound_ : nat;
    elements_ : list T }.

(** [std::find_if]: the position of the first element satisfying [pred],
    or the length of the list (the end iterator) when there is none. *)
Fixpoint find_if (pred : T -> bool) (l : list T) : nat :=
  match l with
  | [] => 0
  | element :: l' => if pred element then 0 else S (find_if pred l')
  end.

(** [std::vector::insert(it, val)] *)
Definition vector_insert (it : nat) (val : T) (l : list T) : list T :=
  firstn it l ++ val :: skipn it l.

(** [std::vector::resize(n)] for [n] not above the size. *)
Definition vector_resize (n : nat) (l : list T) : list T := firstn n l.

Definition push (val : T) (q : BoundedPriorityQueue) : BoundedPriorityQueue :=
  let it := find_if (fun element => Compare val element) (elements_ q) in
  let elements := vector_insert it val (elements_ q) in
  if bound_ q <? length elements
  then mkQueue (bound_ q) (vector_resize (bound_ q) elements)
  else mkQueue (bound_ q) elements.

(** [back()]: [None] stands for the undefined behaviour of
    [std::vector::back] on an empty vector. *)
Definition back (q : BoundedPriorityQueue) : option T :=
  match elements_ q with
  | [] => None
  | e :: l => Some (last l e)
  end.

Definition size (q : BoundedPriorityQueue) : nat := length (elements_ q).

(** [operator[](index)]: [None] stands for the undefined behaviour of
    indexing a vector at or past its size. *)
Definition operator_index (q : BoundedPriorityQueue) (index : nat) : option T :=
  nth_error (elements_ q) index.

End BoundedPriorityQueue.

(** [std::less<std::pair<double, int>>]: the lexicographic [operator<] of
    [std::pair]. *)
Definition pair_less (x y : R * nat) : bool :=
  Rltb (fst x) (fst y) || (negb (Rltb (fst y) (fst x)) && (snd x <? snd y)).

Definition KnnQueue : Type := BoundedPriorityQueue (R * nat).

Definition knn_push : R * nat -> KnnQueue -> KnnQueue := push pair_less.

(** ** Nodes *)

Inductive Node : Type :=
| nullptr : Node
| mkNode (idx : nat) (next0 next1 : Node) (axis : nat) : Node.

(** [node->next[dir]] for [dir] equal to 0 or 1. *)
Definition next (next0 next1 : Node) (dir : nat) : Node :=
  match dir with
  | O => next0
  | _ => next1
  end.

(** [!dir] *)
Definition lnot (dir : nat) : nat :=
  match dir with
  | O => 1
  | _ => 0
  end.

Record KDTree : Type := mkKDTree
  { root_ : Node;
    points_ : list Point }.

(** Modelled from the spec: the type [Exception] that [validateRecursive]
    throws and [validate] catches is not declared in kdtree.h; it is the
    signal of an invariant violation found by the validator, and carries
    no data. *)
Inductive Exception : Type := mkException.

(** ** The contract of [std::nth_element] *)

(** The named requirement the standard puts on a comparator:
    irreflexivity, transitivity, and transitivity of incomparability. *)
Definition strict_weak_order {A : Type} (comp : A -> A -> bool) : Prop :=
  (forall x, comp x x = false) /\
  (forall x y z, comp x y = true -> comp y z = true -> comp x z = true) /\
  (forall x y z,
      comp x y = false -> comp y x = false ->
      comp y z = false -> comp z y = false ->
      comp x z = false /\ comp z x = false).

(** Postcondition of [std::nth_element(first, first + nth, last, comp)]:
    the range is permuted; the element at position [nth] is the one a
    full sort would put there, and nothing before it is greater than
    anything after it.  In one formula: no element at or after position
    [nth] compares less than an element at or before it. *)
Definition nth_element_contract
           (nth_element : list nat -> nat -> (nat -> nat -> bool) -> list nat) : Prop :=
  forall (comp : nat -> nat -> bool) (range : list nat) (n : nat),
    strict_weak_order comp ->
    n < length range ->
    Permutation range (nth_element range n comp) /\
    forall i j, i <= n -> n <= j -> j < length range ->
                comp (nth j (nth_element range n comp) 0)
                     (nth i (nth_element range n comp) 0) = false.

(** One function meeting the contract: it sorts the whole range by
    insertion, each element going before the first one it compares less
    than. *)
Fixpoint ordered_insert {A : Type} (comp : A -> A -> bool) (x : A) (l : list A) : list A :=
  match l with
  | [] => [x]
  | y :: l' => if comp x y then x :: y :: l' else y :: ordered_insert comp x l'
  end.

Definition nth_element_by_sorting
           (range : list nat) (n : nat) (comp : nat -> nat -> bool) : list nat :=
  fold_right (ordered_insert comp) [] range.

(** ** Vocabulary of the statements *)

(** The indices stored in a tree, node first. *)
Fixpoint indices_of (node : Node) : list nat :=
  match node with
  | nullptr => []
  | mkNode idx next0 next1 _ => idx :: indices_of next0 ++ indices_of next1
  end.

(** Height counted in nodes on the longest path from the root. *)
Fixpoint height (node : Node) : nat :=
  match node with
  | nullptr => 0
  | mkNode _ next0 next1 _ => S (Nat.max (height next0) (height next1))
  end.

(** Height counted in edges, for a non-empty tree. *)
Definition edge_height (node : Node) : nat := height node - 1.

(** The number of nodes of a tree. *)
Fixpoint node_count (node : Node) : nat :=
  match node with
  | nullptr => 0
  | mkNode _ next0 next1 _ => S (node_count next0 + node_count next1)
  end.

(** Balance by size: at every node the right subtree has as many nodes
    as the left one, or one more. *)
Fixpoint size_balanced (node : Node) : Prop :=
  match node with
  | nullptr => True
  | mkNode _ next0 next1 _ =>
      node_count next0 <= node_count next1 <= S (node_count next0) /\
      size_balanced next0 /\ size_balanced next1
  end.

(** [KDTree()]: the default constructor leaves [root_] null and
    [points_] empty. *)
Definition KDTree_default : KDTree := mkKDTree nullptr [].

(** [(npoints - 1) / 2] *)
Definition mid_of (npoints : nat) : nat := (npoints - 1) / 2.

(** ** The class over binary64

    Inside this module [double] is the primitive type [float]: [-], [*],
    [+], [sqrt], [fabs] and [<] are the operations of the processor, with
    their rounding, overflow to infinity, underflow, signed zeros and NaN.  The
    nodes, the queue and the contract of [std::nth_element] are shared with
    the rest of the development. *)

Module B64.

Definition Point : Type := list float.

(** [p[i]] *)
Definition coord (p : Point) (i : nat) : float := nth i p PrimFloat.zero.

(** [points_[idx]] *)
Definition at_ (points_ : list Point) (idx : nat) : Point := nth idx points_ [].

(** [std::numeric_limits<double>::max()] *)
Definition DBL_MAX : float := 0x1.fffffffffffffp+1023%float.

(** [std::less<std::pair<double, int>>]: the lexicographic [operator<] of
    [std::pair]. *)
Definition pair_less (x y : float * nat) : bool :=
  PrimFloat.ltb (fst x) (fst y)
  || (negb (PrimFloat.ltb (fst y) (fst x)) && (snd x <? snd y)).

Definition KnnQueue : Type := BoundedPriorityQueue (float * nat).

Definition knn_push : float * nat -> KnnQueue -> KnnQueue := push pair_less.

Record KDTree : Type := mkKDTree
  { root_ : Node;
    points_ : list Point }.

Section KDTree.

(** [PointT::DIM] *)
Variable DIM : nat.

(** The body of the loop of [distance]:
    [dist += (p[i] - q[i]) * (p[i] - q[i])]. *)
Definition distance_step (p q : Point) (dist : float) (i : nat) : float :=
  (dist + (coord p i - coord q i) * (coord p i - coord q i))%float.

(** [distance]: the loop runs [i] over 0, ..., DIM-1 from [dist = 0]. *)
Definition distance (p q : Point) : float :=
  PrimFloat.sqrt (fold_left (distance_step p q) (seq 0 DIM) PrimFloat.zero).

(** [std::nth_element(first, first + nth, last, comp)] on the range held
    in the list; the result is the range after the call. *)
Variable nth_element : list nat -> nat -> (nat -> nat -> bool) -> list nat.

(** The comparator passed to [std::nth_element] by [buildRecursive]. *)
Definition axis_less (pts : list Point) (axis : nat) (lhs rhs : nat) : bool :=
  PrimFloat.ltb (coord (at_ pts lhs) axis) (coord (at_ pts rhs) axis).

(** [buildRecursive(indices, npoints, depth)] *)
Equations? buildRecursive (pts : list Point) (indices : list nat) (depth : nat)
  : Node by wf (length indices) lt :=
  buildRecursive pts [] depth := nullptr;
  buildRecursive pts (i :: rest) depth :=
    mkNode
      (nth (mid_of (length (i :: rest)))
           (nth_element (i :: rest) (mid_of (length (i :: rest)))
                        (axis_less pts (depth mod DIM))) 0)
      (buildRecursive pts
         (firstn (mid_of (length (i :: rest)))
                 (nth_element (i :: rest) (mid_of (length (i :: rest)))
                              (axis_less pts (depth mod DIM))))
         (depth + 1))
      (buildRecursive pts
         (firstn (length (i :: rest) - mid_of (length (i :: rest)) - 1)
                 (skipn (mid_of (length (i :: rest)) + 1)
                        (nth_element (i :: rest) (mid_of (length (i :: rest)))
                                     (axis_less pts (depth mod DIM)))))
         (depth + 1))
      (depth mod DIM).
Proof.
  - rewrite length_firstn. unfold mid_of.
    pose proof (Nat.Div0.div_le_upper_bound (length (i :: rest) - 1) 2 (length rest)).
    simpl in *. lia.
  - rewrite length_firstn. cbn [length].
    destruct (mid_of (S (length rest))); lia.
Qed.

(** [build] *)
Definition build (points : list Point) : KDTree :=
  mkKDTree (buildRecursive points (seq 0 (length points)) 0) points.

(** [fabs(query[axis] - train[axis])] *)
Definition diff (query train : Point) (axis : nat) : float :=
  PrimFloat.abs (coord query axis - coord train axis)%float.

(** The sign of [query[axis] < train[axis] ? 0 : 1]. *)
Definition side (query train : Point) (axis : nat) : nat :=
  if PrimFloat.ltb (coord query axis) (coord train axis) then 0 else 1.

(** [nnSearchRecursive] *)
Fixpoint nnSearchRecursive (pts : list Point) (query : Point) (node : Node)
         (guess : nat) (minDist : float) {struct node} : nat * float :=
  match node with
  | nullptr => (guess, minDist)
  | mkNode idx next0 next1 axis =>
      let train := at_ pts idx in
      let dist := distance query train in
      let '(guess, minDist) :=
        if PrimFloat.ltb dist minDist then (idx, dist) else (guess, minDist) in
      let dir := side query train axis in
      let '(guess, minDist) :=
        nnSearchRecursive pts query (next next0 next1 dir) guess minDist in
      if PrimFloat.ltb (diff query train axis) minDist
      then nnSearchRecursive pts query (next next0 next1 (lnot dir)) guess minDist
      else (guess, minDist)
  end.

(** [knnSearchRecursive]: [None] when the run reaches [back()] on an
    empty queue. *)
Fixpoint knnSearchRecursive (pts : list Point) (query : Point) (node : Node)
         (queue : KnnQueue) (k : nat) {struct node} : option KnnQueue :=
  match node with
  | nullptr => Some queue
  | mkNode idx next0 next1 axis =>
      let train := at_ pts idx in
      let dist := distance query train in
      let queue := knn_push (dist, idx) queue in
      let dir := side query train axis in
      match knnSearchRecursive pts query (next next0 next1 dir) queue k with
      | None => None
      | Some queue =>
          if size queue <? k
          then knnSearchRecursive pts query (next next0 next1 (lnot dir)) queue k
          else
            match back queue with
            | None => None
            | Some worst =>
                if PrimFloat.ltb (diff query train axis) (fst worst)
                then knnSearchRecursive pts query (next next0 next1 (lnot dir)) queue k
                else Some queue
            end
      end
  end.

(** [rangequeryRecursive] *)
Fixpoint rangequeryRecursive (pts : list Point) (query : Point) (node : Node)
         (indices : list nat) (range : float) {struct node} : list nat :=
  match node with
  | nullptr => indices
  | mkNode idx next0 next1 axis =>
      let train := at_ pts idx in
      let dist := distance query train in
      let indices := if PrimFloat.ltb dist range then indices ++ [idx] else indices in
      let dir := side query train axis in
      let indices := rangequeryRecursive pts query (next next0 next1 dir) indices range in
      if PrimFloat.ltb (diff query train axis) range
      then rangequeryRecursive pts query (next next0 next1 (lnot dir)) indices range
      else indices
  end.

(** [nnSearch]: [guess0] is the content of the uninitialised local
    [guess]. *)
Definition nnSearch (guess0 : nat) (t : KDTree) (query : Point) : nat * float :=
  nnSearchRecursive (points_ t) query (root_ t) guess0 DBL_MAX.

Definition knnSearch (t : KDTree) (query : Point) (k : nat) : option (list nat) :=
  match knnSearchRecursive (points_ t) query (root_ t) (mkQueue k []) k with
  | None => None
  | Some queue => Some (map snd (elements_ queue))
  end.

Definition rangequery (t : KDTree) (query : Point) (range : float) : list nat :=
  rangequeryRecursive (points_ t) query (root_ t) [] range.

(** *** Vocabulary of the statements about binary64 runs *)

(** The order of the indices by computed distance to the query. *)
Definition dist_less (pts : list Point) (query : Point) (i j : nat) : bool :=
  PrimFloat.ltb (distance query (at_ pts i)) (distance query (at_ pts j)).

(** The entry [knnSearchRecursive] pushes for point [i], and the order
    [std::less] puts on the entries. *)
Definition entry (pts : list Point) (query : Point) (i : nat) : float * nat :=
  (distance query (at_ pts i), i).

Definition entry_less (pts : list Point) (query : Point) (i j : nat) : bool :=
  pair_less (entry pts query i) (entry pts query j).

(** The partition invariant in terms of [<] on [double]: on the node's
    axis the pivot is not less than a point of the left subtree, and no
    point of the right subtree is less than the pivot. *)
Fixpoint kd_inv (pts : list Point) (node : Node) : Prop :=
  match node with
  | nullptr => True
  | mkNode idx next0 next1 axis =>
      axis < DIM /\
      (forall i, In i (indices_of next0) -> axis_less pts axis idx i = false) /\
      (forall i, In i (indices_of next1) -> axis_less pts axis i idx = false) /\
      kd_inv pts next0 /\ kd_inv pts next1
  end.

(** Point [p] lies on the side of pivot [t] that a search for [query]
    visits last, on axis [axis]. *)
Definition far_side (query t p : Point) (axis : nat) : bool :=
  if PrimFloat.ltb (coord query axis) (coord t axis)
  then negb (PrimFloat.ltb (coord p axis) (coord t axis))
  else negb (PrimFloat.ltb (coord t axis) (coord p axis)).

(** No coordinate of a point of the set is a NaN. *)
Definition no_nan_coords (pts : list Point) : bool :=
  forallb (forallb (fun x => negb (PrimFloat.is_nan x))) pts.

(** Every coordinate of the point is finite: neither an infinity nor a
    NaN. *)
Definition finite_coords (p : Point) : bool := forallb PrimFloat.is_finite p.

(** No distance [distance] computes from the query to a point of the set
    is a NaN. *)
Definition no_nan_distances (pts : list Point) (query : Point) : bool :=
  forallb (fun p => negb (PrimFloat.is_nan (distance query p))) pts.

(** The pruning test of [rangequeryRecursive] is safe on this input:
    whenever [diff < range] fails at a pivot [t], no point [i] on the far
    side of that pivot has a computed distance below [range]. *)
Definition range_prune_safe (pts : list Point) (query : Point) (range : float) : bool :=
  forallb (fun t => forallb (fun i => forallb (fun axis =>
    implb (far_side query (at_ pts t) (at_ pts i) axis
           && negb (PrimFloat.ltb (diff query (at_ pts t) axis) range))
          (negb (PrimFloat.ltb (distance query (at_ pts i)) range)))
    (seq 0 DIM)) (seq 0 (length pts))) (seq 0 (length pts)).

(** The pruning test of [knnSearchRecursive] is safe on this input:
    whenever [diff < worst] fails at a pivot [t] for the computed
    distance [worst] of a point [j], no point [i] on the far side of that
    pivot has a computed distance below [worst]. *)
Definition knn_prune_safe (pts : list Point) (query : Point) : bool :=
  forallb (fun t => forallb (fun i => forallb (fun j => forallb (fun axis =>
    implb (far_side query (at_ pts t) (at_ pts i) axis
           && negb (PrimFloat.ltb (diff query (at_ pts t) axis)
                                  (distance query (at_ pts j))))
          (negb (dist_less pts query i j)))
    (seq 0 DIM)) (seq 0 (length pts))) (seq 0 (length pts))) (seq 0 (length pts)).

(** The queue holds the entries of [kept], which are [k] smallest out of
    the valid indices [seen]: [kept] is ascending for [std::less] on the
    entries, has at most [k] indices, and the indices of [seen] it leaves
    out (there are none unless the queue is full) have no computed
    distance below that of an index it keeps, provided the pruning test
    is safe. *)
Definition topk (pts : list Point) (query : Point) (k : nat) (seen kept : list nat) : Prop :=
  (forall i, In i seen -> i < length pts) /\
  StronglySorted (fun i j => entry_less pts query j i = false) kept /\
  length kept <= k /\
  exists rest,
    Permutation seen (kept ++ rest) /\
    (rest <> [] -> length kept = k) /\
    (knn_prune_safe pts query = true ->
     forall i j, In i kept -> In j rest -> dist_less pts query j i = false).

End KDTree.

(** The rational number a finite [double] denotes (0 for infinities and
    NaN, which denote none). *)
Definition F2Q (x : float) : Q :=
  match Prim2SF x with
  | S754_finite s m e =>
      let z := if s then Z.neg m else Z.pos m in
      match e with
      | Z0 => inject_Z z
      | Zpos p => inject_Z (z * Z.pow_pos 2 p)
      | Zneg p => Qmake z (Pos.pow 2 p)
      end
  | _ => 0%Q
  end.

(** The square of the Euclidean distance between the points two lists of
    finite [double]s denote, computed exactly. *)
Definition euclid2 (DIM : nat) (p q : Point) : Q :=
  fold_left
    (fun acc i => (acc + (F2Q (coord p i) - F2Q (coord q i)) * (F2Q (coord p i) - F2Q (coord q i)))%Q)
    (seq 0 DIM) 0%Q.

End B64.

(** *** Shapes of the values of [double] in their specification *)

(** Not negative: a zero, a positive number, +infinity; a NaN counts,
    since it compares below nothing. *)
Definition SFnonneg (x : spec_float) : Prop :=
  match x with
  | S754_zero _ | S754_nan | S754_infinity false | S754_finite false _ _ => True
  | _ => False
  end.

(** Neither an infinity nor a NaN. *)
Definition SFfinite (x : spec_float) : Prop :=
  match x with
  | S754_zero _ | S754_finite _ _ _ => True
  | _ => False
  end.

Section KDTree.

(** [PointT::DIM] *)
Variable DIM : nat.

(** [std::nth_element(first, first + nth, last, comp)] on the range held
    in the list; the result is the range after the call. *)
Variable nth_element : list nat -> nat -> (nat -> nat -> bool) -> list nat.

(** The comparator passed to [std::nth_element] by [buildRecursive]. *)
Definition axis_less (pts : list Point) (axis : nat) (lhs rhs : nat) : bool :=
  Rltb (coord (at_ pts lhs) axis) (coord (at_ pts rhs) axis).

(** [buildRecursive(indices, npoints, depth)]: [indices] is the range of
    [npoints] elements starting at the pointer; the two recursive calls
    receive the sub-ranges [(indices, mid)] and
    [(indices + mid + 1, npoints - mid - 1)]. *)
Equations? buildRecursive (pts : list Point) (indices : list nat) (depth : nat)
  : Node by wf (length indices) lt :=
  buildRecursive pts [] depth := nullptr;
  buildRecursive pts (i :: rest) depth :=
    mkNode
      (nth (mid_of (length (i :: rest)))
           (nth_element (i :: rest) (mid_of (length (i :: rest)))
                        (axis_less pts (depth mod DIM))) 0)
      (buildRecursive pts
         (firstn (mid_of (length (i :: rest)))
                 (nth_element (i :: rest) (mid_of (length (i :: rest)))
                              (axis_less pts (depth mod DIM))))
         (depth + 1))
      (buildRecursive pts
         (firstn (length (i :: rest) - mid_of (length (i :: rest)) - 1)
                 (skipn (mid_of (length (i :: rest)) + 1)
                        (nth_element (i :: rest) (mid_of (length (i :: rest)))
                                     (axis_less pts (depth mod DIM)))))
         (depth + 1))
      (depth mod DIM).
Proof.
  - rewrite length_firstn. unfold mid_of.
    pose proof (Nat.Div0.div_le_upper_bound (length (i :: rest) - 1) 2 (length rest)).
    simpl in *. lia.
  - rewrite length_firstn. cbn [length].
    destruct (mid_of (S (length rest))); lia.
Qed.

(** [build]: [std::iota] fills [indices] with 0, 1, ..., n-1. *)
Definition build (points : list Point) : KDTree :=
  mkKDTree (buildRecursive points (seq 0 (length points)) 0) points.

(** [validateRecursive]: [inl] is a thrown [Exception]. *)
Fixpoint validateRecursive (pts : list Point) (node : Node) (depth : nat)
         {struct node} : Exception + unit :=
  match node with
  | nullptr => inr tt
  | mkNode idx node0 node1 axis =>
      let check :=
        match node0, node1 with
        | mkNode idx0 _ _ _, mkNode idx1 _ _ _ =>
            if Rltb (coord (at_ pts idx) axis) (coord (at_ pts idx0) axis)
            then inl mkException
            else if Rltb (coord (at_ pts idx1) axis) (coord (at_ pts idx) axis)
                 then inl mkException
                 else inr tt
        | _, _ => inr tt
        end in
      match check with
      | inl e => inl e
      | inr _ =>
          match validateRecursive pts node0 (depth + 1) with
          | inl e => inl e
          | inr _ => validateRecursive pts node1 (depth + 1)
          end
      end
  end.

Definition validate (t : KDTree) : bool :=
  match validateRecursive (points_ t) (root_ t) 0 with
  | inl _ => false
  | inr _ => true
  end.

(** ** Invariants used in the statements *)

(** The partition invariant the searches rely on: at every node the
    points of the left subtree are not above the pivot on the node's
    axis, those of the right subtree not below it. *)
Fixpoint kd_inv (pts : list Point) (node : Node) : Prop :=
  match node with
  | nullptr => True
  | mkNode idx next0 next1 axis =>
      axis < DIM /\
      (forall i, In i (indices_of next0) ->
                 (coord (at_ pts i) axis <= coord (at_ pts idx) axis)%R) /\
      (forall i, In i (indices_of next1) ->
                 (coord (at_ pts idx) axis <= coord (at_ pts i) axis)%R) /\
      kd_inv pts next0 /\ kd_inv pts next1
  end.

(** What [validateRecursive] checks: at every node with both children,
    the pivot is not below the left child's pivot and not above the
    right child's pivot on the node's axis. *)
Fixpoint one_level_inv (pts : list Point) (node : Node) : Prop :=
  match node with
  | nullptr => True
  | mkNode idx next0 next1 axis =>
      match next0, next1 with
      | mkNode idx0 _ _ _, mkNode idx1 _ _ _ =>
          (coord (at_ pts idx0) axis <= coord (at_ pts idx) axis)%R /\
          (coord (at_ pts idx) axis <= coord (at_ pts idx1) axis)%R
      | _, _ => True
      end /\
      one_level_inv pts next0 /\ one_level_inv pts next1
  end.

(** The strict reading of the partition: right subtree strictly above
    the pivot. *)
Fixpoint strict_partition (pts : list Point) (node : Node) : Prop :=
  match node with
  | nullptr => True
  | mkNode idx next0 next1 axis =>
      (forall i, In i (indices_of next0) ->
                 (coord (at_ pts i) axis <= coord (at_ pts idx) axis)%R) /\
      (forall i, In i (indices_of next1) ->
                 (coord (at_ pts idx) axis < coord (at_ pts i) axis)%R) /\
      strict_partition pts next0 /\ strict_partition pts next1
  end.

(** Axis cycling: a node met at depth [depth] splits on the axis
    [depth mod DIM]. *)
Fixpoint axes_cycle (depth : nat) (node : Node) : Prop :=
  match node with
  | nullptr => True
  | mkNode _ next0 next1 axis =>
      axis = depth mod DIM /\
      axes_cycle (depth + 1) next0 /\ axes_cycle (depth + 1) next1
  end.

(** [x < y] for [std::pair<double, int>], as a proposition. *)
Definition lex_lt (x y : R * nat) : Prop :=
  (fst x < fst y)%R \/ (fst x = fst y /\ snd x < snd y).

(** The insertion rule in the words of the specification: the new entry
    goes immediately before the first existing entry whose distance is
    not strictly less than its own; the tail beyond the capacity is then
    dropped. *)
Definition push_first_not_less (val : R * nat) (q : KnnQueue) : KnnQueue :=
  let it := find_if (fun element => negb (Rltb (fst element) (fst val)))
                    (elements_ q) in
  mkQueue (bound_ q) (firstn (bound_ q) (vector_insert it val (elements_ q))).

(** ** Comparisons *)

Lemma Rltb_true (a b : R) : Rltb a b = true <-> (a < b)%R.
Proof. unfold Rltb. destruct (Rlt_dec a b); split; intros; try easy. Qed.

Lemma Rltb_false (a b : R) : Rltb a b = false <-> (b <= a)%R.
Proof.
  unfold Rltb. destruct (Rlt_dec a b); split; intros; try easy; lra.
Qed.

Lemma pair_less_true (x y : R * nat) :
  pair_less x y = true <->
  (fst x < fst y)%R \/ (fst x = fst y /\ snd x < snd y).
Proof.
  unfold pair_less.
  rewrite orb_true_iff, andb_true_iff, negb_true_iff, Rltb_true, Rltb_false,
    Nat.ltb_lt.
  split; intros [H | [H1 H2]]; auto.
  - destruct (Rlt_dec (fst x) (fst y)); [left; assumption | right; split; [lra | assumption]].
  - right. split; [lra | assumption].
Qed.

Lemma pair_less_false (x y : R * nat) :
  pair_less x y = false <->
  (fst y < fst x)%R \/ (fst x = fst y /\ snd y <= snd x).
Proof.
  destruct (pair_less x y) eqn:E.
  - apply pair_less_true in E. split; [discriminate |].
    intros [H | [H1 H2]]; destruct E as [E | [E1 E2]]; lra || lia.
  - split; [intros _ | reflexivity].
    destruct (Rlt_dec (fst y) (fst x)) as [H | H]; [left; assumption |].
    right.
    assert (N : ~ ((fst x < fst y)%R \/ (fst x = fst y /\ snd x < snd y))).
    { intro C. apply pair_less_true in C. congruence. }
    assert (fst x = fst y) by (apply Rle_antisym; [lra |]; apply Rnot_lt_le;
                                intro; apply N; left; assumption).
    split; [assumption |].
    destruct (Nat.le_gt_cases (snd y) (snd x)); [assumption |].
    exfalso. apply N. right. split; assumption.
Qed.

(** ** Strict weak orders *)

Section Orders.

Variable A : Type.
Variable comp : A -> A -> bool.
Hypothesis comp_swo : strict_weak_order comp.

Lemma swo_asym (x y : A) : comp x y = true -> comp y x = false.
Proof.
  destruct comp_swo as (Hirr & Htr & _). intro H.
  destruct (comp y x) eqn:E; [| reflexivity].
  rewrite <- (Hirr x). symmetry. eapply Htr; eassumption.
Qed.

(** "Not less" is transitive. *)
Lemma swo_ge_trans (x y z : A) :
  comp y x = false -> comp z y = false -> comp z x = false.
Proof.
  destruct comp_swo as (Hirr & Htr & Heq). intros Hyx Hzy.
  destruct (comp z x) eqn:Hzx; [exfalso | reflexivity].
  destruct (comp y z) eqn:Hyz.
  - rewrite (Htr _ _ _ Hyz Hzx) in Hyx. discriminate.
  - destruct (comp x y) eqn:Hxy.
    + rewrite (Htr _ _ _ Hzx Hxy) in Hzy. discriminate.
    + destruct (Heq z y x Hzy Hyz Hyx Hxy) as [C _]. congruence.
Qed.

Lemma ordered_insert_perm (x : A) (l : list A) :
  Permutation (x :: l) (ordered_insert comp x l).
Proof.
  induction l as [| y l IH]; simpl; [reflexivity |].
  destruct (comp x y); [reflexivity |].
  rewrite perm_swap. constructor. exact IH.
Qed.

Lemma ordered_insert_sorted (x : A) (l : list A) :
  StronglySorted (fun a b => comp b a = false) l ->
  StronglySorted (fun a b => comp b a = false) (ordered_insert comp x l).
Proof.
  induction 1 as [| y l Hs IH Hy]; simpl.
  - repeat constructor.
  - destruct (comp x y) eqn:E.
    + constructor; [constructor; assumption |].
      constructor; [apply swo_asym; assumption |].
      rewrite Forall_forall in *. intros b Hb.
      apply swo_ge_trans with y; [apply swo_asym; assumption | auto].
    + constructor; [assumption |].
      rewrite Forall_forall in *. intros b Hb.
      apply Permutation_in with (l' := x :: l) in Hb;
        [| symmetry; apply ordered_insert_perm].
      destruct Hb as [<- | Hb]; auto.
Qed.

Lemma insertion_sorted (l : list A) :
  StronglySorted (fun a b => comp b a = false)
                 (fold_right (ordered_insert comp) [] l).
Proof.
  induction l; simpl; [constructor | apply ordered_insert_sorted; assumption].
Qed.

Lemma insertion_perm (l : list A) :
  Permutation l (fold_right (ordered_insert comp) [] l).
Proof.
  induction l as [| x l IH]; simpl; [reflexivity |].
  rewrite <- ordered_insert_perm. constructor. exact IH.
Qed.

End Orders.

(** [find_if] followed by [insert] is the ordered insertion. *)
Lemma vector_insert_find_if (A : Type) (comp : A -> A -> bool) (val : A) (l : list A) :
  vector_insert (find_if (fun element => comp val element) l) val l
  = ordered_insert comp val l.
Proof.
  unfold vector_insert. induction l as [| y l IH]; simpl; [reflexivity |].
  destruct (comp val y); simpl; [reflexivity |].
  f_equal. exact IH.
Qed.

Lemma pair_less_swo : strict_weak_order pair_less.
Proof.
  repeat split.
  - intro x. apply pair_less_false. right. split; [reflexivity | lia].
  - intros x y z H1 H2. apply pair_less_true in H1, H2. apply pair_less_true.
    destruct H1 as [H1 | [H1 H1']], H2 as [H2 | [H2 H2']];
      [left; lra | left; lra | left; lra | right; split; [congruence | lia]].
  - apply pair_less_false in H, H0, H1, H2. apply pair_less_false.
    destruct H as [H | [H H']], H0 as [H0 | [H0 H0']],
      H1 as [H1 | [H1 H1']], H2 as [H2 | [H2 H2']]; try lra.
    right. split; [congruence | lia].
  - apply pair_less_false in H, H0, H1, H2. apply pair_less_false.
    destruct H as [H | [H H']], H0 as [H0 | [H0 H0']],
      H1 as [H1 | [H1 H1']], H2 as [H2 | [H2 H2']]; try lra.
    right. split; [congruence | lia].
Qed.

Lemma axis_less_swo (pts : list Point) (axis : nat) :
  strict_weak_order (axis_less pts axis).
Proof.
  unfold axis_less. repeat split.
  - intro x. apply Rltb_false. lra.
  - intros x y z H1 H2. apply Rltb_true in H1, H2. apply Rltb_true. lra.
  - apply Rltb_false in H, H0, H1, H2. apply Rltb_false. lra.
  - apply Rltb_false in H, H0, H1, H2. apply Rltb_false. lra.
Qed.

(** ** Near and far subtrees *)

Lemma in_indices_node (i idx : nat) (n0 n1 : Node) (axis dir : nat) :
  In i (indices_of (mkNode idx n0 n1 axis)) <->
  i = idx \/ In i (indices_of (next n0 n1 dir))
  \/ In i (indices_of (next n0 n1 (lnot dir))).
Proof.
  simpl. rewrite in_app_iff. destruct dir; simpl; intuition congruence.
Qed.

Lemma nodup_node_split (idx : nat) (n0 n1 : Node) (axis dir : nat) :
  NoDup (indices_of (mkNode idx n0 n1 axis)) ->
  NoDup (indices_of (next n0 n1 dir)) /\
  NoDup (indices_of (next n0 n1 (lnot dir))) /\
  ~ In idx (indices_of (next n0 n1 dir)) /\
  ~ In idx (indices_of (next n0 n1 (lnot dir))) /\
  (forall i, In i (indices_of (next n0 n1 dir)) ->
             ~ In i (indices_of (next n0 n1 (lnot dir)))).
Proof.
  simpl. intro H. apply NoDup_cons_iff in H. destruct H as [Hn H].
  rewrite in_app_iff in Hn.
  pose proof (NoDup_app_remove_l _ _ H) as H1.
  pose proof (NoDup_app_remove_r _ _ H) as H0.
  assert (Hd : forall i, In i (indices_of n0) -> In i (indices_of n1) -> False).
  { intros i Hi0 Hi1. apply in_split in Hi0. destruct Hi0 as (a & b & E).
    rewrite E in H. rewrite <- app_assoc in H. simpl in H.
    apply NoDup_remove_2 in H. apply H.
    rewrite app_assoc. apply in_or_app. right. assumption. }
  destruct dir; simpl; repeat split; try assumption; try tauto;
    intros i Ha Hb; eapply Hd; eassumption.
Qed.

(** ** The bounded queue *)

Lemma push_elements (A : Type) (comp : A -> A -> bool) (val : A)
      (q : BoundedPriorityQueue A) :
  push comp val q
  = mkQueue (bound_ q) (firstn (bound_ q) (ordered_insert comp val (elements_ q))).
Proof.
  unfold push, vector_resize. rewrite vector_insert_find_if.
  destruct (Nat.ltb_spec (bound_ q) (length (ordered_insert comp val (elements_ q))));
    [reflexivity |].
  rewrite firstn_all2 by assumption. reflexivity.
Qed.

Lemma ordered_insert_length (A : Type) (comp : A -> A -> bool) (x : A) (l : list A) :
  length (ordered_insert comp x l) = S (length l).
Proof.
  rewrite <- (Permutation_length (ordered_insert_perm comp x l)). reflexivity.
Qed.

Lemma StronglySorted_app_inv (A : Type) (Rel : A -> A -> Prop) (l1 l2 : list A) :
  StronglySorted Rel (l1 ++ l2) ->
  StronglySorted Rel l1 /\ StronglySorted Rel l2 /\
  (forall x y, In x l1 -> In y l2 -> Rel x y).
Proof.
  induction l1 as [| a l1 IH]; simpl; intro H.
  - split; [constructor | split; [assumption | tauto]].
  - apply StronglySorted_inv in H. destruct H as [Hs Hf].
    destruct (IH Hs) as (H1 & H2 & H3).
    rewrite Forall_app in Hf. destruct Hf as [Hf1 Hf2].
    split; [constructor; assumption | split; [assumption |]].
    intros x y [<- | Hx] Hy; [| auto].
    rewrite Forall_forall in Hf2. auto.
Qed.

Lemma StronglySorted_nth (A : Type) (Rel : A -> A -> Prop) (l : list A) (d : A) :
  StronglySorted Rel l ->
  forall i j, i < j -> j < length l -> Rel (nth i l d) (nth j l d).
Proof.
  induction 1 as [| a l Hs IH Hf]; intros i j Hij Hj; simpl in Hj; [lia |].
  destruct j as [| j]; [lia |]. destruct i as [| i]; simpl.
  - rewrite Forall_forall in Hf. apply Hf. apply nth_In. lia.
  - apply IH; lia.
Qed.

Lemma last_cons (A : Type) (l : list A) (a b : A) : last (b :: l) a = last l b.
Proof.
  revert a b. induction l as [| c l IH]; intros a b; [reflexivity |].
  change (last (b :: c :: l) a) with (last (c :: l) a).
  rewrite (IH a c), (IH b c). reflexivity.
Qed.

Lemma last_In (A : Type) (l : list A) (a : A) : In (last l a) (a :: l).
Proof.
  revert a. induction l as [| b l IH]; intro a; [left; reflexivity |].
  rewrite last_cons. right. apply IH.
Qed.

Lemma StronglySorted_last (A : Type) (Rel : A -> A -> Prop) (l : list A) (a e : A) :
  StronglySorted Rel (a :: l) -> In e (a :: l) ->
  e = last l a \/ Rel e (last l a).
Proof.
  revert a e. induction l as [| b l IH]; intros a e Hs He.
  - left. destruct He as [<- | []]. reflexivity.
  - apply StronglySorted_inv in Hs. destruct Hs as [Hs Hf].
    rewrite last_cons. destruct He as [<- | He].
    + right. rewrite Forall_forall in Hf. apply Hf. apply last_In.
    + apply IH; assumption.
Qed.

Lemma In_firstn_In (A : Type) (n : nat) (l : list A) (x : A) :
  In x (firstn n l) -> In x l.
Proof.
  intro H. rewrite <- (firstn_skipn n l). apply in_or_app. left. exact H.
Qed.

(** ** The indices met in a subtree *)

Lemma entries_node_perm (A : Type) (f : nat -> A) (seen : list A)
      (idx : nat) (n0 n1 : Node) (axis dir : nat) :
  Permutation
    (((f idx :: seen) ++ map f (indices_of (next n0 n1 dir)))
       ++ map f (indices_of (next n0 n1 (lnot dir))))
    (seen ++ map f (indices_of (mkNode idx n0 n1 axis))).
Proof.
  cbn [indices_of map]. rewrite map_app, <- app_assoc.
  rewrite <- Permutation_middle. cbn [app]. constructor.
  apply Permutation_app_head.
  destruct dir; cbn [next lnot]; [reflexivity | apply Permutation_app_comm].
Qed.

(** ** buildRecursive *)

Hypothesis nth_element_ok : nth_element_contract nth_element.

Lemma mid_of_lt (n : nat) : 0 < n -> mid_of n < n.
Proof.
  unfold mid_of. intro H. pose proof (Nat.Div0.mul_div_le (n - 1) 2). lia.
Qed.

Lemma mid_of_sizes (n : nat) : 0 < n -> mid_of n = (n - 1) / 2 /\ n - mid_of n - 1 = n / 2.
Proof.
  unfold mid_of. intro H. split; [reflexivity |].
  pose proof (Nat.Div0.mul_div_le (n - 1) 2).
  pose proof (Nat.Div0.mul_div_le n 2).
  pose proof (Nat.mul_succ_div_gt (n - 1) 2).
  pose proof (Nat.mul_succ_div_gt n 2).
  lia.
Qed.

(** What one call of [std::nth_element] in [buildRecursive] leaves in
    the range. *)
Lemma build_step (pts : list Point) (indices : list nat) (depth : nat) :
  indices <> [] ->
  let n := length indices in
  let mid := mid_of n in
  let axis := depth mod DIM in
  let l' := nth_element indices mid (axis_less pts axis) in
  let pivot := nth mid l' 0 in
  length l' = n /\
  Permutation indices (firstn mid l' ++ pivot :: skipn (mid + 1) l') /\
  firstn (n - mid - 1) (skipn (mid + 1) l') = skipn (mid + 1) l' /\
  (forall x, In x (firstn mid l') ->
             (coord (at_ pts x) axis <= coord (at_ pts pivot) axis)%R) /\
  (forall x, In x (skipn (mid + 1) l') ->
             (coord (at_ pts pivot) axis <= coord (at_ pts x) axis)%R).
Proof.
  intros Hne n mid axis l' pivot.
  assert (Hn : 0 < n) by (unfold n; destruct indices; simpl; [congruence | lia]).
  assert (Hmid : mid < n) by (apply mid_of_lt; assumption).
  destruct (nth_element_ok indices (axis_less_swo pts axis) Hmid) as [HP Hpart].
  fold l' in HP, Hpart.
  assert (Hlen : length l' = n) by (symmetry; apply Permutation_length; assumption).
  split; [assumption |]. split; [| split; [| split]].
  - rewrite HP at 1.
    replace (mid + 1) with (S mid) by lia.
    destruct (nth_split l' 0 (n := mid)) as (l1 & l2 & E1 & E2); [lia |].
    fold pivot in E1.
    assert (F : firstn mid l' = l1).
    { rewrite E1. rewrite <- E2. rewrite firstn_app, Nat.sub_diag, firstn_all.
      simpl. apply app_nil_r. }
    assert (G : skipn (S mid) l' = l2).
    { rewrite E1 at 1. rewrite <- E2. rewrite skipn_app.
      rewrite skipn_all2 by lia.
      replace (S (length l1) - length l1) with 1 by lia. reflexivity. }
    rewrite F, G, <- E1. reflexivity.
  - apply firstn_all2. rewrite length_skipn. lia.
  - intros x Hx. apply (In_nth _ _ 0) in Hx. destruct Hx as (i & Hi & <-).
    rewrite length_firstn in Hi. rewrite nth_firstn.
    destruct (Nat.ltb_spec i mid); [| lia].
    apply Rltb_false. apply (Hpart i mid); lia.
  - intros x Hx. apply (In_nth _ _ 0) in Hx. destruct Hx as (j & Hj & <-).
    rewrite length_skipn in Hj. rewrite nth_skipn.
    apply Rltb_false. apply (Hpart mid (mid + 1 + j)); lia.
Qed.

Lemma buildRecursive_indices (pts : list Point) (indices : list nat) (depth : nat) :
  Permutation (indices_of (buildRecursive pts indices depth)) indices.
Proof.
  funelim (buildRecursive pts indices depth); [reflexivity |].
  destruct (@build_step pts (i :: rest) depth ltac:(discriminate))
    as (_ & HP & E & _).
  cbn [indices_of]. rewrite H, H0, E.
  etransitivity; [| symmetry; exact HP].
  apply Permutation_middle.
Qed.

Lemma buildRecursive_kd_inv (pts : list Point) (indices : list nat) (depth : nat) :
  0 < DIM -> kd_inv pts (buildRecursive pts indices depth).
Proof.
  intro HD. funelim (buildRecursive pts indices depth); [exact I |].
  destruct (@build_step pts (i :: rest) depth ltac:(discriminate))
    as (_ & _ & E & Hl & Hr).
  cbn [kd_inv]. split; [apply Nat.mod_upper_bound; lia |].
  split; [| split; [| split; auto]].
  - intros x Hx. apply Hl. eapply Permutation_in; [apply buildRecursive_indices |].
    exact Hx.
  - intros x Hx. apply Hr. rewrite <- E.
    eapply Permutation_in; [apply buildRecursive_indices |]. exact Hx.
Qed.

(** The number of levels of a tree of [n] nodes split at the lower
    median: 0 for no node, otherwise 1 + floor(log2 n). *)
Lemma levels_half (n : nat) : 0 < n -> Nat.log2_up (S n) = S (Nat.log2_up (S (n / 2))).
Proof.
  intro Hn. rewrite Nat.log2_up_eqn by lia. cbn [Nat.pred]. f_equal.
  destruct (Nat.eq_dec n 1) as [-> | H1]; [reflexivity |].
  rewrite Nat.log2_up_eqn by (pose proof (Nat.mul_succ_div_gt n 2); lia).
  cbn [Nat.pred].
  pose proof (Nat.div_mod_eq n 2) as E.
  pose proof (Nat.mod_upper_bound n 2 ltac:(lia)) as Hm.
  assert (Hq : 0 < n / 2) by (pose proof (Nat.mul_succ_div_gt n 2); lia).
  destruct (Nat.eq_dec (n mod 2) 0) as [E0 | E0].
  - rewrite E at 1. rewrite E0, Nat.add_0_r. apply Nat.log2_double. assumption.
  - rewrite E at 1. replace (n mod 2) with 1 by lia.
    apply Nat.log2_succ_double. assumption.
Qed.

Lemma buildRecursive_height (pts : list Point) (indices : list nat) (depth : nat) :
  height (buildRecursive pts indices depth) = Nat.log2_up (S (length indices)).
Proof.
  funelim (buildRecursive pts indices depth); [reflexivity |].
  destruct (@build_step pts (i :: rest) depth ltac:(discriminate))
    as (Hlen & _ & E & _).
  cbn [height]. rewrite H, H0, E.
  rewrite length_firstn, length_skipn, Hlen.
  set (n := length (i :: rest)) in *.
  assert (Hn : 0 < n) by (unfold n; simpl; lia).
  destruct (mid_of_sizes Hn) as [Hm Hr].
  pose proof (mid_of_lt Hn) as Hlt.
  rewrite Nat.min_l by lia.
  replace (n - (mid_of n + 1)) with (n / 2) by lia.
  rewrite Nat.max_r.
  - symmetry. apply levels_half. assumption.
  - apply Nat.log2_up_le_mono.
    pose proof (Nat.Div0.mul_div_le (n - 1) 2). lia.
Qed.

Lemma buildRecursive_nil (pts : list Point) (depth : nat) :
  buildRecursive pts [] depth = nullptr.
Proof. simp buildRecursive. reflexivity. Qed.

Lemma buildRecursive_cons (pts : list Point) (i : nat) (rest : list nat) (depth : nat) :
  exists idx n0 n1 axis, buildRecursive pts (i :: rest) depth = mkNode idx n0 n1 axis.
Proof. simp buildRecursive. do 4 eexists. reflexivity. Qed.

Lemma in_build_indices (points : list Point) (i : nat) :
  In i (indices_of (root_ (build points))) <-> i < length points.
Proof.
  unfold build. cbn [root_]. split; intro H.
  - apply (Permutation_in _ (buildRecursive_indices points _ 0)) in H.
    apply in_seq in H. lia.
  - apply (Permutation_in _ (Permutation_sym (buildRecursive_indices points _ 0))).
    apply in_seq. lia.
Qed.

(** ** validateRecursive *)

Lemma kd_inv_one_level (pts : list Point) (node : Node) :
  kd_inv pts node -> one_level_inv pts node.
Proof.
  induction node as [| idx n0 IH0 n1 IH1 axis]; [trivial |].
  cbn [kd_inv one_level_inv]. intros (_ & Hl & Hr & H0 & H1).
  split; [| auto].
  destruct n0 as [| idx0 ? ? ?]; [exact I |].
  destruct n1 as [| idx1 ? ? ?]; [exact I |].
  split; [apply Hl | apply Hr]; left; reflexivity.
Qed.

Lemma validateRecursive_iff (pts : list Point) (node : Node) (depth : nat) :
  validateRecursive pts node depth = inr tt <-> one_level_inv pts node.
Proof.
  revert depth. induction node as [| idx n0 IH0 n1 IH1 axis]; intro depth.
  - simpl. tauto.
  - cbn [validateRecursive one_level_inv].
    specialize (IH0 (depth + 1)). specialize (IH1 (depth + 1)).
    destruct n0 as [| idx0 a0 b0 c0].
    + destruct (validateRecursive pts nullptr (depth + 1)) as [[] | []] eqn:E0;
        [simpl in E0; discriminate |].
      rewrite IH1. simpl. tauto.
    + destruct n1 as [| idx1 a1 b1 c1].
      * destruct (validateRecursive pts (mkNode idx0 a0 b0 c0) (depth + 1))
          as [[] | []] eqn:E0.
        -- split; [discriminate |]. intros (_ & H & _). apply IH0 in H. discriminate.
        -- simpl. split; [intros _ | reflexivity].
           split; [exact I | split; [apply IH0; reflexivity | exact I]].
      * destruct (Rltb (coord (at_ pts idx) axis) (coord (at_ pts idx0) axis)) eqn:C0.
        { apply Rltb_true in C0. split; [discriminate |]. intros ((H & _) & _). lra. }
        apply Rltb_false in C0.
        destruct (Rltb (coord (at_ pts idx1) axis) (coord (at_ pts idx) axis)) eqn:C1.
        { apply Rltb_true in C1. split; [discriminate |]. intros ((_ & H) & _). lra. }
        apply Rltb_false in C1.
        destruct (validateRecursive pts (mkNode idx0 a0 b0 c0) (depth + 1))
          as [[] | []] eqn:E0.
        -- split; [discriminate |]. intros (_ & H & _). apply IH0 in H. discriminate.
        -- rewrite IH1. split; [intro H | tauto].
           split; [split; assumption | split; [apply IH0; reflexivity | assumption]].
Qed.

(** ** The built tree *)

Lemma build_perm (points : list Point) :
  Permutation (indices_of (root_ (build points))) (seq 0 (length points)).
Proof. unfold build. cbn [root_]. apply buildRecursive_indices. Qed.

Lemma build_nodup (points : list Point) :
  NoDup (indices_of (root_ (build points))).
Proof.
  apply (Permutation_NoDup (Permutation_sym (build_perm points))).
  apply seq_NoDup.
Qed.

(** ** The claims *)

(** C10. After [build(points)] the indices stored in the nodes of the
    tree are, as a multiset, exactly 0, 1, ..., n-1: each index sits at
    exactly one node. *)
Theorem build_indices_permutation (points : list Point) :
  Permutation (indices_of (root_ (build points))) (seq 0 (length points)) /\
  NoDup (indices_of (root_ (build points))) /\
  points_ (build points) = points.
Proof.
  split; [apply build_perm |]. split; [apply build_nodup | reflexivity].
Qed.

(** C9, as the code has it. For n >= 1 points the built tree has
    floor(log2 n) + 1 levels of nodes, that is height floor(log2 n)
    counted in edges, whatever the points are. *)
Theorem build_height (points : list Point) :
  points <> [] ->
  height (root_ (build points)) = S (Nat.log2 (length points)) /\
  edge_height (root_ (build points)) = Nat.log2 (length points).
Proof.
  intro Hne. unfold edge_height, build. cbn [root_].
  rewrite buildRecursive_height, length_seq.
  assert (0 < length points) by (destruct points; simpl; [congruence | lia]).
  rewrite Nat.log2_up_eqn by lia. cbn [Nat.pred]. lia.
Qed.

(** [PointT::DIM] is at least 1: [depth % PointT::DIM] is undefined
    otherwise. *)
Hypothesis DIM_pos : 0 < DIM.

Lemma build_kd_inv (points : list Point) : kd_inv points (root_ (build points)).
Proof. unfold build. cbn [root_]. apply buildRecursive_kd_inv. exact DIM_pos. Qed.

(** C4. [validate()] returns true right after [build(points)], and what
    it has checked is the one-level invariant: at every node with both
    children the pivot is not below the left child's pivot and not above
    the right child's pivot on the node's axis. *)
Theorem validate_after_build (points : list Point) :
  validate (build points) = true /\
  one_level_inv points (root_ (build points)).
Proof.
  assert (H : one_level_inv points (root_ (build points)))
    by (apply kd_inv_one_level, build_kd_inv).
  split; [| exact H].
  unfold validate. change (points_ (build points)) with points.
  apply (validateRecursive_iff points _ 0) in H. rewrite H. reflexivity.
Qed.

(** C5, as the code has it. At every node of the built tree the points
    of the left subtree are not above the pivot on the node's axis and
    the points of the right subtree are not below it; the axis is a
    valid coordinate. *)
Theorem build_partition (points : list Point) :
  kd_inv points (root_ (build points)).
Proof. apply build_kd_inv. Qed.

Lemma StronglySorted_map (A B : Type) (RA : A -> A -> Prop) (RB : B -> B -> Prop)
      (f : A -> B) (l : list A) :
  (forall a b, In a l -> In b l -> RA a b -> RB (f a) (f b)) ->
  StronglySorted RA l -> StronglySorted RB (map f l).
Proof.
  intros Hf Hs. induction Hs as [| a l Hs IH Ha]; simpl; constructor.
  - apply IH. intros x y Hx Hy. apply Hf; right; assumption.
  - rewrite Forall_forall in *. intros y Hy. apply in_map_iff in Hy.
    destruct Hy as (x & <- & Hx). apply Hf; [left; reflexivity | right; assumption |].
    auto.
Qed.

Lemma ordered_insert_position (A : Type) (comp : A -> A -> bool) (val : A) (l : list A) :
  exists before after,
    l = before ++ after /\
    (forall x, In x before -> comp val x = false) /\
    (forall x, hd_error after = Some x -> comp val x = true) /\
    ordered_insert comp val l = before ++ val :: after.
Proof.
  induction l as [| y l (before & after & E & Hb & Ha & Hi)].
  - exists [], []. simpl. repeat split; try tauto; discriminate.
  - simpl. destruct (comp val y) eqn:C.
    + exists [], (y :: l). simpl. repeat split; try tauto.
      intros x [= <-]. exact C.
    + exists (y :: before), after. simpl. rewrite Hi, <- E.
      repeat split; try assumption.
      intros x [<- | Hx]; auto.
Qed.

Lemma knn_push_sorted (val : R * nat) (q : KnnQueue) :
  StronglySorted (fun a b => pair_less b a = false) (elements_ q) ->
  StronglySorted (fun a b => pair_less b a = false) (elements_ (knn_push val q)).
Proof.
  intro Hs. unfold knn_push. rewrite push_elements. cbn [elements_].
  apply (ordered_insert_sorted pair_less_swo val) in Hs.
  rewrite <- (firstn_skipn (bound_ q)) in Hs.
  apply StronglySorted_app_inv in Hs. apply Hs.
Qed.

Lemma knn_pushes_sorted (vals : list (R * nat)) (q : KnnQueue) :
  StronglySorted (fun a b => pair_less b a = false) (elements_ q) ->
  StronglySorted (fun a b => pair_less b a = false)
                 (elements_ (fold_left (fun q val => knn_push val q) vals q)).
Proof.
  revert q. induction vals as [| val vals IH]; intros q Hs; [exact Hs |].
  cbn [fold_left]. apply IH. apply knn_push_sorted. exact Hs.
Qed.

(** C6, as the code has it. [push] places the new entry immediately
    before the first existing entry that is strictly greater than it in
    the lexicographic order of [std::pair] (distance first, then index),
    after every entry before that one, or at the end when there is none;
    the tail beyond the capacity is dropped.  A queue filled by pushes
    from the empty queue is therefore ascending for that order: entries
    of equal distance are listed by ascending index, whatever the order
    of their insertion. *)
Theorem push_position (val : R * nat) (q : KnnQueue)
        (vals : list (R * nat)) (bound : nat) :
  (exists before after,
      elements_ q = before ++ after /\
      (forall x, In x before -> ~ lex_lt val x) /\
      (forall x, hd_error after = Some x -> lex_lt val x) /\
      elements_ (knn_push val q) = firstn (bound_ q) (before ++ val :: after)) /\
  StronglySorted (fun a b => ~ lex_lt b a)
    (elements_ (fold_left (fun q val => knn_push val q) vals (mkQueue bound []))).
Proof.
  split.
  - destruct (ordered_insert_position pair_less val (elements_ q))
      as (before & after & E & Hb & Ha & Hi).
    exists before, after. split; [exact E |].
    split; [| split].
    + intros x Hx C. apply pair_less_true in C. rewrite (Hb x Hx) in C. discriminate.
    + intros x Hx. apply pair_less_true. auto.
    + unfold knn_push. rewrite push_elements. cbn [elements_]. rewrite Hi. reflexivity.
  - pose proof (@knn_pushes_sorted vals (mkQueue bound []) (SSorted_nil _)) as Hs.
    rewrite <- (map_id (elements_ _)).
    eapply StronglySorted_map; [| exact Hs].
    intros a b _ _ Hab C. apply pair_less_true in C. congruence.
Qed.

End KDTree.

(** ** The sorting instance of [std::nth_element] *)

Lemma nth_element_by_sorting_ok : nth_element_contract nth_element_by_sorting.
Proof.
  intros comp range n Hswo Hn. unfold nth_element_by_sorting.
  pose proof (insertion_perm comp range) as HP.
  split; [exact HP |].
  intros i j Hi Hj Hlen. rewrite (Permutation_length HP) in Hlen.
  destruct (Nat.eq_dec i j) as [-> | Hne].
  - apply Hswo.
  - apply (StronglySorted_nth 0 (insertion_sorted Hswo range)); lia.
Qed.

(** ** Concrete runs *)

(** Settles an order between concrete real numbers. *)
Ltac Rdecide := lra.

(** Replaces every comparison of concrete numbers by its value. *)
Ltac Rcompare :=
  repeat match goal with
         | |- context [Rltb ?a ?b] =>
             first [ rewrite (proj2 (Rltb_true a b)) by Rdecide
                   | rewrite (proj2 (Rltb_false a b)) by Rdecide ]
         end.

(** The tree of the single point (0). *)
Lemma build_single :
  build 1 nth_element_by_sorting [[0%R]] = mkKDTree (mkNode 0 nullptr nullptr 0) [[0%R]].
Proof.
  unfold build. cbn [length seq]. simp buildRecursive.
  cbn [length mid_of Nat.sub Nat.div Nat.divmod fst nth_element_by_sorting fold_right
       ordered_insert nth firstn skipn Nat.add Nat.modulo snd].
  simp buildRecursive. reflexivity.
Qed.

(** Runs [build] on a concrete point set with the sorting instance. *)
Ltac run_build :=
  unfold build; cbn [length seq];
  repeat (progress (try (simp buildRecursive);
                    cbn [length mid_of Nat.sub Nat.div Nat.divmod fst snd Nat.add
                         Nat.modulo nth_element_by_sorting fold_right ordered_insert];
                    unfold axis_less; cbn [at_ coord nth]; Rcompare;
                    cbn [nth firstn skipn])).

(** The tree of the two equal points (1), (1): the sort leaves index 1
    first, so index 1 is the pivot and index 0 goes right. *)
Lemma build_two_equal :
  build 1 nth_element_by_sorting [[1%R]; [1%R]]
  = mkKDTree (mkNode 1 nullptr (mkNode 0 nullptr nullptr 0) 0) [[1%R]; [1%R]].
Proof. run_build. reflexivity. Qed.

(** The tree of the three points (0), (1), (2). *)
Lemma build_three :
  build 1 nth_element_by_sorting [[0%R]; [1%R]; [2%R]]
  = mkKDTree (mkNode 1 (mkNode 0 nullptr nullptr 0) (mkNode 2 nullptr nullptr 0) 0)
             [[0%R]; [1%R]; [2%R]].
Proof. run_build. reflexivity. Qed.

(** The tree of the scenario of the specification, in dimension 2. *)
Lemma build_scenario :
  build 2 nth_element_by_sorting [[0; 0]; [1; 1]; [2; 2]; [9; 9]]%R
  = mkKDTree (mkNode 1 (mkNode 0 nullptr nullptr 1)
                     (mkNode 2 nullptr (mkNode 3 nullptr nullptr 0) 1) 0)
             [[0; 0]; [1; 1]; [2; 2]; [9; 9]]%R.
Proof. run_build. reflexivity. Qed.

(** ** Where the claims fail as stated *)

(** C5 as stated fails. For the two equal points (1), (1) the right
    subtree of the root holds a point whose coordinate equals the
    pivot's: it is not strictly greater. *)
Lemma build_right_not_strict :
  root_ (build 1 nth_element_by_sorting [[1%R]; [1%R]])
  = mkNode 1 nullptr (mkNode 0 nullptr nullptr 0) 0 /\
  ~ strict_partition [[1%R]; [1%R]]
      (root_ (build 1 nth_element_by_sorting [[1%R]; [1%R]])).
Proof.
  rewrite build_two_equal. split; [reflexivity |].
  cbn [root_ strict_partition indices_of app]. intros (_ & H & _).
  specialize (H 0 (or_introl eq_refl)). cbn in H. lra.
Qed.

(** C6 as stated fails. Pushing (1, 7) on the queue holding (1, 5), an
    entry of the same distance, puts the new entry after the old one; the
    rule of the specification would put it before. *)
Lemma push_equal_distance_goes_after :
  knn_push (1%R, 7) (mkQueue 3 [(1%R, 5)]) = mkQueue 3 [(1%R, 5); (1%R, 7)] /\
  push_first_not_less (1%R, 7) (mkQueue 3 [(1%R, 5)]) = mkQueue 3 [(1%R, 7); (1%R, 5)] /\
  knn_push (1%R, 7) (mkQueue 3 [(1%R, 5)])
  <> push_first_not_less (1%R, 7) (mkQueue 3 [(1%R, 5)]).
Proof.
  assert (H1 : knn_push (1%R, 7) (mkQueue 3 [(1%R, 5)])
               = mkQueue 3 [(1%R, 5); (1%R, 7)]).
  { unfold knn_push, push, pair_less. cbn [elements_ bound_ find_if fst snd].
    Rcompare. reflexivity. }
  assert (H2 : push_first_not_less (1%R, 7) (mkQueue 3 [(1%R, 5)])
               = mkQueue 3 [(1%R, 7); (1%R, 5)]).
  { unfold push_first_not_less. cbn [elements_ bound_ find_if fst snd].
    Rcompare. reflexivity. }
  split; [exact H1 |]. split; [exact H2 |].
  rewrite H1, H2. intro C. injection C as C _. discriminate.
Qed.

(** C9 as stated fails, whichever way the height is counted: one point
    gives one level of nodes, not ceil(log2 1) = 0; three points give a
    tree of height 1 in edges, not ceil(log2 3) = 2. *)
Lemma build_height_not_log2_up :
  height (root_ (build 1 nth_element_by_sorting [[0%R]]))
  <> Nat.log2_up (length [[0%R]]) /\
  edge_height (root_ (build 1 nth_element_by_sorting [[0%R]; [1%R]; [2%R]]))
  <> Nat.log2_up (length [[0%R]; [1%R]; [2%R]]).
Proof.
  rewrite build_single, build_three. cbn. split; discriminate.
Qed.

(** ** The theorems at concrete inputs *)

Lemma validate_after_build_witness :
  nth_element_contract nth_element_by_sorting /\
  0 < 1 /\
  validate (build 1 nth_element_by_sorting [[0%R]; [3%R]; [1%R]]) = true.
Proof.
  split; [exact nth_element_by_sorting_ok |]. split; [lia |].
  apply (@validate_after_build 1 nth_element_by_sorting nth_element_by_sorting_ok
           ltac:(lia) [[0%R]; [3%R]; [1%R]]).
Defined.

Lemma build_partition_witness :
  nth_element_contract nth_element_by_sorting /\
  0 < 1 /\
  kd_inv 1 [[0%R]; [3%R]; [1%R]]
         (root_ (build 1 nth_element_by_sorting [[0%R]; [3%R]; [1%R]])).
Proof.
  split; [exact nth_element_by_sorting_ok |]. split; [lia |].
  exact (@build_partition 1 nth_element_by_sorting nth_element_by_sorting_ok
           ltac:(lia) [[0%R]; [3%R]; [1%R]]).
Defined.

Lemma build_height_witness :
  nth_element_contract nth_element_by_sorting /\
  [[0%R]; [3%R]; [1%R]] <> [] /\
  height (root_ (build 1 nth_element_by_sorting [[0%R]; [3%R]; [1%R]])) = 2 /\
  edge_height (root_ (build 1 nth_element_by_sorting [[0%R]; [3%R]; [1%R]])) = 1.
Proof.
  split; [exact nth_element_by_sorting_ok |].
  split; [discriminate |].
  exact (@build_height 1 nth_element_by_sorting nth_element_by_sorting_ok
           [[0%R]; [3%R]; [1%R]] ltac:(discriminate)).
Defined.

Lemma build_indices_permutation_witness :
  nth_element_contract nth_element_by_sorting /\
  Permutation
    (indices_of (root_ (build 1 nth_element_by_sorting [[0%R]; [3%R]; [1%R]])))
    [0; 1; 2].
Proof.
  split; [exact nth_element_by_sorting_ok |].
  apply (@build_indices_permutation 1 nth_element_by_sorting nth_element_by_sorting_ok
           [[0%R]; [3%R]; [1%R]]).
Defined.

(** * Further properties of the code *)

(** ** BoundedPriorityQueue *)

Section QueueProperties.

Variable T : Type.
Variable Compare : T -> T -> bool.

(** Inserting into the truncated list or into the whole list gives the
    same first [b] entries. *)
Lemma firstn_ordered_insert_firstn (b : nat) (val : T) (l : list T) :
  firstn b (ordered_insert Compare val (firstn b l))
  = firstn b (ordered_insert Compare val l).
Proof.
  revert b. induction l as [| y l IH]; intro b.
  - rewrite firstn_nil. reflexivity.
  - destruct b as [| b]; [reflexivity |].
    rewrite (firstn_cons b y l). cbn [ordered_insert]. destruct (Compare val y).
    + rewrite !firstn_cons. f_equal. destruct b as [| b]; [reflexivity |].
      rewrite !firstn_cons, firstn_firstn. do 2 f_equal. lia.
    + rewrite !firstn_cons. f_equal. apply IH.
Qed.

Lemma pushes_elements (vals : list T) (b : nat) (l : list T) :
  elements_ (fold_left (fun q val => push Compare val q) vals (mkQueue b (firstn b l)))
  = firstn b (fold_left (fun l val => ordered_insert Compare val l) vals l).
Proof.
  revert l. induction vals as [| val vals IH]; intro l; [reflexivity |].
  cbn [fold_left]. rewrite push_elements. cbn [bound_ elements_].
  rewrite firstn_ordered_insert_firstn. apply IH.
Qed.

Lemma inserts_perm (vals l : list T) :
  Permutation (vals ++ l) (fold_left (fun l val => ordered_insert Compare val l) vals l).
Proof.
  revert l. induction vals as [| val vals IH]; intro l; [reflexivity |].
  cbn [fold_left app]. rewrite <- IH.
  rewrite <- (ordered_insert_perm Compare val l). apply Permutation_middle.
Qed.

(** X1. [push] never changes the bound; the size grows by one until it
    reaches the bound and never exceeds it; every entry of the queue after
    the call is the pushed value or an entry that was there before. *)
Theorem push_size_and_entries (val : T) (q : BoundedPriorityQueue T) :
  bound_ (push Compare val q) = bound_ q /\
  size (push Compare val q) = Nat.min (bound_ q) (S (size q)) /\
  forall x, In x (elements_ (push Compare val q)) -> x = val \/ In x (elements_ q).
Proof.
  rewrite push_elements. cbn [bound_ elements_]. unfold size. cbn [elements_].
  split; [reflexivity |]. split.
  - rewrite length_firstn, ordered_insert_length. reflexivity.
  - intros x Hx. apply In_firstn_In in Hx.
    apply (Permutation_in _ (Permutation_sym (ordered_insert_perm Compare val _))) in Hx.
    destruct Hx as [<- | Hx]; auto.
Qed.

(** X2. [back()] is defined exactly when the queue is not empty, and is
    then the entry [operator[]] gives at position [size() - 1]. *)
Theorem back_is_last_index (q : BoundedPriorityQueue T) :
  back q = operator_index q (size q - 1) /\
  (back q = None <-> size q = 0).
Proof.
  unfold back, operator_index, size. destruct (elements_ q) as [| e l]; cbn [length].
  - split; [reflexivity | tauto].
  - split; [| split; [discriminate | lia]].
    rewrite Nat.sub_1_r. cbn [Nat.pred].
    revert e. induction l as [| a l IH]; intro e; [reflexivity |].
    rewrite last_cons. cbn [length nth_error]. apply IH.
Qed.

Hypothesis Compare_swo : strict_weak_order Compare.

Lemma inserts_sorted (vals l : list T) :
  StronglySorted (fun a b => Compare b a = false) l ->
  StronglySorted (fun a b => Compare b a = false)
                 (fold_left (fun l val => ordered_insert Compare val l) vals l).
Proof.
  revert l. induction vals as [| val vals IH]; intros l Hl; [exact Hl |].
  cbn [fold_left]. apply IH. apply ordered_insert_sorted; assumption.
Qed.

(** X3. A queue filled by pushes from the empty queue holds the [bound]
    smallest of the pushed values: it is ascending, its size is the
    smaller of the bound and the number of pushes, and the pushed values
    it has dropped are none of them less than a value it keeps. *)
Theorem pushes_keep_smallest (vals : list T) (bound : nat) :
  let q := fold_left (fun q val => push Compare val q) vals (mkQueue bound []) in
  StronglySorted (fun a b => Compare b a = false) (elements_ q) /\
  size q = Nat.min bound (length vals) /\
  exists dropped,
    Permutation vals (elements_ q ++ dropped) /\
    forall e d, In e (elements_ q) -> In d dropped -> Compare d e = false.
Proof.
  intro q. unfold q, size.
  pose proof (pushes_elements vals bound []) as E. rewrite firstn_nil in E. rewrite E.
  set (full := fold_left (fun l val => ordered_insert Compare val l) vals []).
  assert (HP : Permutation vals full).
  { unfold full. rewrite <- inserts_perm. rewrite app_nil_r. reflexivity. }
  assert (Hs : StronglySorted (fun a b => Compare b a = false) full)
    by (apply inserts_sorted; constructor).
  rewrite <- (firstn_skipn bound full) in Hs.
  apply StronglySorted_app_inv in Hs. destruct Hs as (H1 & _ & H3).
  split; [exact H1 |]. split.
  - rewrite length_firstn, (Permutation_length HP). reflexivity.
  - exists (skipn bound full). split; [rewrite firstn_skipn; exact HP | exact H3].
Qed.

(** X4. On a full ascending queue, pushing a value that is not less than
    the last entry leaves the queue as it was. *)
Theorem push_full_rejects (val worst : T) (q : BoundedPriorityQueue T) :
  StronglySorted (fun a b => Compare b a = false) (elements_ q) ->
  size q = bound_ q ->
  back q = Some worst ->
  Compare val worst = false ->
  push Compare val q = q.
Proof.
  intros Hs Hfull Hb Hv. rewrite push_elements. destruct q as [b l].
  unfold size, back in *. cbn [bound_ elements_] in *. f_equal.
  assert (Hall : forall e, In e l -> Compare val e = false).
  { destruct l as [| a l]; [discriminate |]. injection Hb as <-.
    intros e He. destruct (StronglySorted_last Hs He) as [-> | H]; [exact Hv |].
    apply (swo_ge_trans Compare_swo e (last l a) val); assumption. }
  assert (Hins : ordered_insert Compare val l = l ++ [val]).
  { clear - Hall. induction l as [| a l IH]; [reflexivity |].
    cbn [ordered_insert]. rewrite (Hall a (or_introl eq_refl)).
    cbn [app]. f_equal. apply IH. intros e He. apply Hall. right. exact He. }
  rewrite Hins, <- Hfull. rewrite firstn_app, Nat.sub_diag, firstn_all.
  cbn [firstn]. apply app_nil_r.
Qed.

End QueueProperties.


(** ** build and validate *)

Section BuildProperties.

Variable DIM : nat.
Variable nth_element : list nat -> nat -> (nat -> nat -> bool) -> list nat.

Lemma buildRecursive_axes (pts : list Point) (indices : list nat) (depth : nat) :
  axes_cycle DIM depth (buildRecursive DIM nth_element pts indices depth).
Proof.
  funelim (buildRecursive DIM nth_element pts indices depth); [exact I |].
  cbn [axes_cycle]. auto.
Qed.

(** X9. The axes cycle with the depth: in the built tree a node at depth
    d splits on the axis d mod DIM, the root being at depth 0. *)
Theorem build_axes_cycle (points : list Point) :
  axes_cycle DIM 0 (root_ (build DIM nth_element points)).
Proof. unfold build. cbn [root_]. apply buildRecursive_axes. Qed.

(** X10. The built tree is empty exactly when there are no points, and
    building from no points gives the tree of the default constructor. *)
Theorem build_empty_iff (points : list Point) :
  (root_ (build DIM nth_element points) = nullptr <-> points = []) /\
  build DIM nth_element [] = KDTree_default.
Proof.
  unfold build, KDTree_default. cbn [root_]. split.
  - destruct points as [| p points]; cbn [length seq].
    + rewrite buildRecursive_nil. tauto.
    + destruct (buildRecursive_cons DIM nth_element (p :: points) 0
                  (seq 1 (length points)) 0) as (idx & n0 & n1 & axis & ->).
      split; discriminate.
  - cbn [length seq]. rewrite buildRecursive_nil. reflexivity.
Qed.

(** X11. [validate] returns true exactly on the trees that satisfy the
    one-level invariant, whether built or not: it returns false as soon
    as some node with two children has its pivot below the left child's
    pivot or above the right child's pivot on the node's axis, and it
    looks at nothing else. *)
Theorem validate_iff (t : KDTree) :
  validate t = true <-> one_level_inv (points_ t) (root_ t).
Proof.
  unfold validate. rewrite <- (validateRecursive_iff (points_ t) (root_ t) 0).
  destruct (validateRecursive (points_ t) (root_ t) 0) as [e | []].
  - split; discriminate.
  - split; reflexivity.
Qed.

(** X12. [validate] accepts every tree that satisfies the partition
    invariant of the searches. *)
Theorem validate_accepts_partition (pts : list Point) (node : Node) :
  kd_inv DIM pts node -> validate (mkKDTree node pts) = true.
Proof.
  intro H. apply kd_inv_one_level in H. unfold validate. cbn [root_ points_].
  apply (validateRecursive_iff pts node 0) in H. rewrite H. reflexivity.
Qed.

Lemma node_count_indices (node : Node) : length (indices_of node) = node_count node.
Proof.
  induction node as [| idx n0 IH0 n1 IH1 axis]; [reflexivity |].
  cbn [indices_of node_count length]. rewrite length_app, IH0, IH1. reflexivity.
Qed.

Hypothesis nth_element_ok : nth_element_contract nth_element.

Lemma buildRecursive_count (pts : list Point) (indices : list nat) (depth : nat) :
  node_count (buildRecursive DIM nth_element pts indices depth) = length indices.
Proof.
  rewrite <- node_count_indices.
  apply Permutation_length. apply buildRecursive_indices. exact nth_element_ok.
Qed.

Lemma buildRecursive_balanced (pts : list Point) (indices : list nat) (depth : nat) :
  size_balanced (buildRecursive DIM nth_element pts indices depth).
Proof.
  funelim (buildRecursive DIM nth_element pts indices depth); [exact I |].
  destruct (@build_step DIM nth_element nth_element_ok pts (i :: rest) depth
              ltac:(discriminate)) as (Hlen & _ & E & _).
  cbn [size_balanced]. split; [| split; assumption].
  rewrite !buildRecursive_count, E, length_firstn, length_skipn, Hlen.
  set (n := length (i :: rest)) in *.
  assert (Hn : 0 < n) by (unfold n; simpl; lia).
  destruct (mid_of_sizes Hn) as [Hm Hr].
  pose proof (mid_of_lt Hn) as Hlt.
  pose proof (Nat.Div0.mul_div_le (n - 1) 2).
  pose proof (Nat.mul_succ_div_gt (n - 1) 2).
  pose proof (Nat.Div0.mul_div_le n 2).
  pose proof (Nat.mul_succ_div_gt n 2).
  lia.
Qed.

(** X13. The built tree has one node per point and is balanced by size:
    at every node the right subtree has as many nodes as the left one, or
    one more. *)
Theorem build_size_balanced (points : list Point) :
  node_count (root_ (build DIM nth_element points)) = length points /\
  size_balanced (root_ (build DIM nth_element points)).
Proof.
  unfold build. cbn [root_]. split.
  - rewrite buildRecursive_count. apply length_seq.
  - apply buildRecursive_balanced.
Qed.

Lemma buildRecursive_children (pts : list Point) (i : nat) (rest : list nat)
      (depth idx : nat) (n0 n1 : Node) (axis : nat) :
  buildRecursive DIM nth_element pts (i :: rest) depth = mkNode idx n0 n1 axis ->
  node_count n0 = (length (i :: rest) - 1) / 2 /\
  node_count n1 = length (i :: rest) / 2.
Proof.
  rewrite buildRecursive_equation_2. intro H.
  match type of H with
  | mkNode _ ?a ?b _ = _ =>
      assert (A : node_count a = (length (i :: rest) - 1) / 2 /\
                  node_count b = length (i :: rest) / 2)
  end.
  { destruct (@build_step DIM nth_element nth_element_ok pts (i :: rest) depth
                ltac:(discriminate)) as (Hlen & _ & E & _).
    rewrite !buildRecursive_count, E, length_firstn, length_skipn, Hlen.
    set (n := length (i :: rest)) in *.
    assert (Hn : 0 < n) by (unfold n; simpl; lia).
    destruct (mid_of_sizes Hn) as [Hm Hr].
    pose proof (mid_of_lt Hn) as Hlt. lia. }
  injection H as _ H0 H1 _. subst n0 n1. exact A.
Qed.

Hypothesis DIM_pos : 0 < DIM.

(** X14. The pivot of the root is a lower median on the root's axis:
    at most (n-1)/2 points of the set are strictly below it and at most
    n/2 strictly above it. *)
Theorem build_root_is_median (points : list Point)
        (idx : nat) (n0 n1 : Node) (axis : nat) :
  root_ (build DIM nth_element points) = mkNode idx n0 n1 axis ->
  length (filter (fun j => Rltb (coord (at_ points j) axis) (coord (at_ points idx) axis))
                 (seq 0 (length points))) <= (length points - 1) / 2 /\
  length (filter (fun j => Rltb (coord (at_ points idx) axis) (coord (at_ points j) axis))
                 (seq 0 (length points))) <= length points / 2.
Proof.
  intro Hroot.
  pose proof (build_kd_inv nth_element_ok DIM_pos points) as Hinv.
  pose proof (build_nodup DIM nth_element_ok points) as Hnd.
  pose proof (in_build_indices DIM nth_element_ok points) as Hin.
  rewrite Hroot in Hinv, Hnd, Hin.
  cbn [kd_inv] in Hinv. destruct Hinv as (_ & Hl & Hr & _).
  assert (Hsz : node_count n0 = (length points - 1) / 2 /\
                node_count n1 = length points / 2).
  { unfold build in Hroot. cbn [root_] in Hroot.
    destruct points as [| p points]; cbn [length seq] in Hroot.
    - rewrite buildRecursive_nil in Hroot. discriminate.
    - apply buildRecursive_children in Hroot. cbn [length] in *.
      rewrite length_seq in Hroot. exact Hroot. }
  destruct Hsz as [Hs0 Hs1].
  cbn [indices_of] in Hnd, Hin.
  split.
  - rewrite <- Hs0, <- node_count_indices.
    apply NoDup_incl_length; [apply NoDup_filter, seq_NoDup |].
    intros j Hj. apply filter_In in Hj. destruct Hj as [Hj Hlt].
    apply in_seq in Hj. apply Rltb_true in Hlt.
    assert (Hj' : In j (idx :: indices_of n0 ++ indices_of n1)) by (apply Hin; lia).
    destruct Hj' as [<- | Hj']; [lra |].
    apply in_app_iff in Hj'. destruct Hj' as [Hj' | Hj']; [exact Hj' |].
    specialize (Hr j Hj'). lra.
  - rewrite <- Hs1, <- node_count_indices.
    apply NoDup_incl_length; [apply NoDup_filter, seq_NoDup |].
    intros j Hj. apply filter_In in Hj. destruct Hj as [Hj Hlt].
    apply in_seq in Hj. apply Rltb_true in Hlt.
    assert (Hj' : In j (idx :: indices_of n0 ++ indices_of n1)) by (apply Hin; lia).
    destruct Hj' as [<- | Hj']; [lra |].
    apply in_app_iff in Hj'. destruct Hj' as [Hj' | Hj']; [| exact Hj'].
    specialize (Hl j Hj'). lra.
Qed.

End BuildProperties.


(** ** The further properties at concrete inputs *)

Lemma Nat_ltb_swo : strict_weak_order Nat.ltb.
Proof.
  repeat split.
  - intro x. apply Nat.ltb_irrefl.
  - intros x y z H1 H2. apply Nat.ltb_lt in H1, H2. apply Nat.ltb_lt. lia.
  - apply Nat.ltb_ge in H, H0, H1, H2. apply Nat.ltb_ge. lia.
  - apply Nat.ltb_ge in H, H0, H1, H2. apply Nat.ltb_ge. lia.
Qed.

Lemma pushes_keep_smallest_witness :
  strict_weak_order Nat.ltb /\
  size (fold_left (fun q val => push Nat.ltb val q) [3; 1; 2] (mkQueue 2 []))
  = Nat.min 2 (length [3; 1; 2]).
Proof.
  split; [exact Nat_ltb_swo |].
  apply (@pushes_keep_smallest nat Nat.ltb Nat_ltb_swo [3; 1; 2] 2).
Defined.

Lemma push_full_rejects_witness :
  strict_weak_order Nat.ltb /\
  StronglySorted (fun a b => Nat.ltb b a = false) (elements_ (mkQueue 1 [1])) /\
  size (mkQueue 1 [1]) = bound_ (mkQueue 1 [1]) /\
  back (mkQueue 1 [1]) = Some 1 /\
  Nat.ltb 2 1 = false /\
  push Nat.ltb 2 (mkQueue 1 [1]) = mkQueue 1 [1].
Proof.
  assert (Hs : StronglySorted (fun a b => Nat.ltb b a = false) (elements_ (mkQueue 1 [1])))
    by (repeat constructor).
  split; [exact Nat_ltb_swo |]. split; [exact Hs |].
  split; [reflexivity |]. split; [reflexivity |]. split; [reflexivity |].
  exact (@push_full_rejects nat Nat.ltb Nat_ltb_swo 2 1 (mkQueue 1 [1]) Hs
           eq_refl eq_refl eq_refl).
Defined.

Lemma validate_accepts_partition_witness :
  kd_inv 1 [[0%R]; [1%R]; [2%R]]
         (mkNode 1 (mkNode 0 nullptr nullptr 0) (mkNode 2 nullptr nullptr 0) 0) /\
  validate (mkKDTree (mkNode 1 (mkNode 0 nullptr nullptr 0) (mkNode 2 nullptr nullptr 0) 0)
                     [[0%R]; [1%R]; [2%R]]) = true.
Proof.
  assert (H : kd_inv 1 [[0%R]; [1%R]; [2%R]]
                     (mkNode 1 (mkNode 0 nullptr nullptr 0)
                             (mkNode 2 nullptr nullptr 0) 0)).
  { cbn [kd_inv indices_of app].
    repeat split; try lia; intros j Hj; cbn [In] in Hj; try contradiction;
      destruct Hj as [<- | []]; cbn [at_ coord nth]; lra. }
  split; [exact H |].
  exact (@validate_accepts_partition 1 [[0%R]; [1%R]; [2%R]]
           (mkNode 1 (mkNode 0 nullptr nullptr 0) (mkNode 2 nullptr nullptr 0) 0) H).
Defined.

Lemma build_size_balanced_witness :
  nth_element_contract nth_element_by_sorting /\
  node_count (root_ (build 1 nth_element_by_sorting [[0%R]; [3%R]; [1%R]])) = 3.
Proof.
  split; [exact nth_element_by_sorting_ok |].
  apply (@build_size_balanced 1 nth_element_by_sorting nth_element_by_sorting_ok
           [[0%R]; [3%R]; [1%R]]).
Defined.

Lemma build_root_is_median_witness :
  nth_element_contract nth_element_by_sorting /\
  0 < 1 /\
  root_ (build 1 nth_element_by_sorting [[0%R]; [1%R]; [2%R]])
  = mkNode 1 (mkNode 0 nullptr nullptr 0) (mkNode 2 nullptr nullptr 0) 0 /\
  length (filter (fun j => Rltb (coord (at_ [[0%R]; [1%R]; [2%R]] j) 0)
                                (coord (at_ [[0%R]; [1%R]; [2%R]] 1) 0))
                 (seq 0 3)) <= 1.
Proof.
  assert (H : root_ (build 1 nth_element_by_sorting [[0%R]; [1%R]; [2%R]])
              = mkNode 1 (mkNode 0 nullptr nullptr 0) (mkNode 2 nullptr nullptr 0) 0)
    by (rewrite build_three; reflexivity).
  split; [exact nth_element_by_sorting_ok |]. split; [lia |]. split; [exact H |].
  apply (@build_root_is_median 1 nth_element_by_sorting nth_element_by_sorting_ok
           ltac:(lia) [[0%R]; [1%R]; [2%R]] 1 _ _ 0 H).
Defined.

(** * The searches in binary64

    From here on [double] is the primitive type [float] and every function
    is the copy of module [B64]. *)

(** ** The order of [double] *)

(** Splits a goal along the comparisons of exponents and mantissas it
    contains. *)
Ltac compare_cases :=
  repeat match goal with
         | |- context [Z.compare ?a ?b] => destruct (Z.compare_spec a b)
         | H : context [Z.compare ?a ?b] |- _ => destruct (Z.compare_spec a b)
         | |- context [Pos.compare_cont Eq ?a ?b] =>
             change (Pos.compare_cont Eq a b) with (Pos.compare a b) in *;
             destruct (Pos.compare_spec a b)
         | H : context [Pos.compare_cont Eq ?a ?b] |- _ =>
             change (Pos.compare_cont Eq a b) with (Pos.compare a b) in *;
             destruct (Pos.compare_spec a b)
         end;
  simpl in *; try congruence; try lia.

(** [SFcompare] is the specification of [<], [<=] and [==] on [double]:
    it is reflexive away from NaN, antisymmetric and transitive. *)

Lemma SFcompare_refl (x : spec_float) :
  x <> S754_nan -> SFcompare x x = Some Eq.
Proof.
  destruct x as [s | s | | s m e]; simpl; try congruence; intros _.
  - destruct s; reflexivity.
  - destruct s; rewrite Z.compare_refl;
      change (Pos.compare_cont Eq m m) with (Pos.compare m m);
      rewrite Pos.compare_refl; reflexivity.
Qed.

Lemma SFcompare_antisym (x y : spec_float) (c : comparison) :
  SFcompare x y = Some c -> SFcompare y x = Some (CompOpp c).
Proof.
  destruct x as [s1 | s1 | | s1 m1 e1], y as [s2 | s2 | | s2 m2 e2]; simpl;
    try discriminate; intros [= <-];
    try (destruct s1; reflexivity); try (destruct s2; reflexivity);
    try (destruct s1, s2; reflexivity).
  change (Pos.compare_cont Eq m1 m2) with (Pos.compare m1 m2).
  change (Pos.compare_cont Eq m2 m1) with (Pos.compare m2 m1).
  rewrite (Z.compare_antisym e1 e2), (Pos.compare_antisym m1 m2).
  destruct s1, s2; try reflexivity;
    destruct (e1 ?= e2)%Z; simpl; try reflexivity;
    destruct (m1 ?= m2)%positive; reflexivity.
Qed.

Lemma SFcompare_le_trans (x y z : spec_float) (c1 c2 : comparison) :
  SFcompare x y = Some c1 -> SFcompare y z = Some c2 ->
  c1 <> Gt -> c2 <> Gt ->
  SFcompare x z = Some match c1, c2 with Eq, Eq => Eq | _, _ => Lt end.
Proof.
  destruct x as [s1 | s1 | | s1 m1 e1], y as [s2 | s2 | | s2 m2 e2],
     z as [s3 | s3 | | s3 m3 e3]; simpl; try discriminate;
    intros H1 H2 N1 N2; injection H1 as <-; injection H2 as <-;
    try (destruct s1); try (destruct s2); try (destruct s3);
    simpl in *; try congruence; compare_cases.
Qed.

Lemma SFcompare_some (x y : spec_float) :
  x <> S754_nan -> y <> S754_nan -> exists c, SFcompare x y = Some c.
Proof.
  destruct x, y; simpl; try congruence; eauto.
Qed.

Lemma is_nan_false (x : float) :
  PrimFloat.is_nan x = false <-> Prim2SF x <> S754_nan.
Proof.
  unfold PrimFloat.is_nan. rewrite FloatAxioms.eqb_spec. unfold SFeqb. split.
  - intros H E. rewrite E in H. discriminate.
  - intro H. rewrite (SFcompare_refl H). reflexivity.
Qed.

Lemma float_ltb_irrefl (x : float) : PrimFloat.ltb x x = false.
Proof.
  rewrite ltb_spec. unfold SFltb.
  destruct (Prim2SF x) as [s | s | | s m e] eqn:E; try reflexivity;
    rewrite SFcompare_refl; congruence.
Qed.

Lemma float_ltb_trans (x y z : float) :
  PrimFloat.ltb x y = true -> PrimFloat.ltb y z = true -> PrimFloat.ltb x z = true.
Proof.
  rewrite !ltb_spec. unfold SFltb.
  destruct (SFcompare (Prim2SF x) (Prim2SF y)) as [[] |] eqn:E1; try discriminate.
  destruct (SFcompare (Prim2SF y) (Prim2SF z)) as [[] |] eqn:E2; try discriminate.
  rewrite (SFcompare_le_trans _ _ _ E1 E2); [reflexivity | discriminate | discriminate].
Qed.

(** Among values that are not NaN, "not less" is "greater or equal". *)
Lemma float_ltb_false (x y : float) :
  PrimFloat.is_nan x = false -> PrimFloat.is_nan y = false ->
  PrimFloat.ltb x y = false ->
  exists c, SFcompare (Prim2SF y) (Prim2SF x) = Some c /\ c <> Gt.
Proof.
  intros Hx Hy. apply is_nan_false in Hx, Hy.
  destruct (SFcompare_some Hx Hy) as (c & E).
  rewrite ltb_spec. unfold SFltb. rewrite E.
  apply SFcompare_antisym in E. rewrite E.
  destruct c; simpl; intro; eexists; split; try reflexivity; discriminate.
Qed.

Lemma float_ltb_ge_trans (x y z : float) :
  PrimFloat.is_nan x = false -> PrimFloat.is_nan y = false ->
  PrimFloat.is_nan z = false ->
  PrimFloat.ltb y x = false -> PrimFloat.ltb z y = false ->
  PrimFloat.ltb z x = false.
Proof.
  intros Hx Hy Hz Hxy Hyz.
  destruct (float_ltb_false Hy Hx Hxy) as (c1 & E1 & N1).
  destruct (float_ltb_false Hz Hy Hyz) as (c2 & E2 & N2).
  pose proof (SFcompare_le_trans _ _ _ E1 E2 N1 N2) as E.
  apply SFcompare_antisym in E. rewrite ltb_spec. unfold SFltb. rewrite E.
  destruct c1, c2; reflexivity.
Qed.

(** A strictly smaller value stays strictly smaller than a greater-or-equal
    one. *)
Lemma float_ltb_le_trans (x y z : float) :
  PrimFloat.is_nan z = false ->
  PrimFloat.ltb x y = true -> PrimFloat.ltb z y = false ->
  PrimFloat.ltb x z = true.
Proof.
  intros Hz Hxy Hyz.
  assert (Hy : PrimFloat.is_nan y = false).
  { apply is_nan_false. intro E. rewrite ltb_spec in Hxy. unfold SFltb in Hxy.
    rewrite E in Hxy. destruct (Prim2SF x); discriminate. }
  destruct (float_ltb_false Hz Hy Hyz) as (c2 & E2 & N2).
  rewrite ltb_spec in Hxy |- *. unfold SFltb in *.
  destruct (SFcompare (Prim2SF x) (Prim2SF y)) as [[] |] eqn:E1; try discriminate.
  rewrite (SFcompare_le_trans _ _ _ E1 E2); [| discriminate | assumption].
  reflexivity.
Qed.

Lemma float_le_ltb_trans (x y z : float) :
  PrimFloat.is_nan x = false ->
  PrimFloat.ltb y x = false -> PrimFloat.ltb y z = true ->
  PrimFloat.ltb x z = true.
Proof.
  intros Hx Hyx Hyz.
  assert (Hy : PrimFloat.is_nan y = false).
  { apply is_nan_false. intro E. rewrite ltb_spec in Hyz. unfold SFltb in Hyz.
    rewrite E in Hyz. discriminate. }
  destruct (float_ltb_false Hy Hx Hyx) as (c1 & E1 & N1).
  rewrite ltb_spec in Hyz |- *. unfold SFltb in *.
  destruct (SFcompare (Prim2SF y) (Prim2SF z)) as [[] |] eqn:E2; try discriminate.
  rewrite (SFcompare_le_trans _ _ _ E1 E2); [| assumption | discriminate].
  destruct c1; reflexivity.
Qed.

Lemma float_ltb_leb_trans (x y z : float) :
  PrimFloat.ltb x y = true -> PrimFloat.leb y z = true -> PrimFloat.ltb x z = true.
Proof.
  rewrite !ltb_spec, leb_spec. unfold SFltb, SFleb.
  destruct (SFcompare (Prim2SF x) (Prim2SF y)) as [[] |] eqn:E1; try discriminate.
  destruct (SFcompare (Prim2SF y) (Prim2SF z)) as [[] |] eqn:E2; try discriminate;
    intros _ _; rewrite (SFcompare_le_trans _ _ _ E1 E2); try discriminate; reflexivity.
Qed.

(** [<] on the values of a family without NaN is a strict weak order. *)
Lemma float_ltb_swo (A : Type) (f : A -> float) :
  (forall a, PrimFloat.is_nan (f a) = false) ->
  strict_weak_order (fun a b => PrimFloat.ltb (f a) (f b)).
Proof.
  intro H. split; [| split].
  - intro x. apply float_ltb_irrefl.
  - intros x y z. apply float_ltb_trans.
  - intros x y z Hxy Hyx Hyz Hzy. split.
    + apply float_ltb_ge_trans with (y := f y); auto.
    + apply float_ltb_ge_trans with (y := f y); auto.
Qed.

(** ** Rounded arithmetic *)

(** The sign of a rounded result is the sign asked for; the digits do
    not depend on it. *)
Lemma SFabs_binary_round_aux (prec emax : Z) (s : bool) (mx ex : Z) (lx : location) :
  SFabs (binary_round_aux prec emax s mx ex lx) = binary_round_aux prec emax false mx ex lx.
Proof.
  unfold binary_round_aux.
  destruct (shr_fexp prec emax mx ex lx) as [mrs' e'].
  destruct (shr_fexp prec emax _ e' loc_Exact) as [mrs'' e''].
  destruct (shr_m mrs''); simpl; try reflexivity.
  destruct (Z.leb e'' (emax - prec)); reflexivity.
Qed.

Lemma SFabs_binary_normalize_opp (prec emax : Z) (m e : Z) :
  SFabs (binary_normalize prec emax (- m) e false)
  = SFabs (binary_normalize prec emax m e false).
Proof.
  destruct m as [| m | m]; simpl; try reflexivity;
    unfold binary_round;
    destruct (shl_align m e _) as [mz ez];
    rewrite !SFabs_binary_round_aux; reflexivity.
Qed.

(** [x - y] and [y - x] differ by the sign at most. *)
Lemma SFabs_SFsub_sym (prec emax : Z) (x y : spec_float) :
  SFabs (SFsub prec emax x y) = SFabs (SFsub prec emax y x).
Proof.
  destruct x as [sx | sx | | sx mx ex], y as [sy | sy | | sy my ey];
    try reflexivity;
    try (destruct sx, sy; reflexivity);
    try (destruct sx; reflexivity); try (destruct sy; reflexivity).
  unfold SFsub. rewrite (Z.min_comm ey ex).
  rewrite <- SFabs_binary_normalize_opp. f_equal. f_equal. lia.
Qed.

(** A square depends on the absolute value only. *)
Lemma SFmul_square_abs (prec emax : Z) (x y : spec_float) :
  SFabs x = SFabs y -> SFmul prec emax x x = SFmul prec emax y y.
Proof.
  destruct x as [sx | sx | | sx mx ex], y as [sy | sy | | sy my ey];
    simpl; try discriminate; intro H; try reflexivity;
    try (injection H as ? ?; subst); destruct sx, sy; reflexivity.
Qed.

Lemma float_square_sub_sym (a b : float) :
  ((a - b) * (a - b))%float = ((b - a) * (b - a))%float.
Proof.
  apply Prim2SF_inj. rewrite !mul_spec, !sub_spec.
  apply SFmul_square_abs. apply SFabs_SFsub_sym.
Qed.

(** A square root is never negative. *)
Lemma SFsqrt_nonneg (prec emax : Z) (x : spec_float) : SFnonneg (SFsqrt prec emax x).
Proof.
  destruct x as [s | s | | s m e]; simpl; try exact I.
  - destruct s; exact I.
  - destruct s; [exact I |].
    destruct (SFsqrt_core_binary prec emax (Z.pos m) e) as [[mz ez] lz].
    unfold binary_round_aux.
    destruct (shr_fexp prec emax mz ez lz) as [mrs' e'].
    destruct (shr_fexp prec emax _ e' loc_Exact) as [mrs'' e''].
    destruct (shr_m mrs''); simpl; try exact I.
    destruct (Z.leb e'' (emax - prec)); exact I.
Qed.

Lemma SFnonneg_not_below (x r : spec_float) :
  SFnonneg x -> SFleb r (S754_zero false) = true -> SFltb x r = false.
Proof.
  unfold SFleb, SFltb.
  destruct x as [sx | sx | | sx mx ex], r as [sr | sr | | sr mr er]; simpl;
    try discriminate; try reflexivity; try tauto;
    try (destruct sx; simpl; try tauto; try discriminate; try reflexivity;
         destruct sr; simpl; try discriminate; reflexivity);
    try (destruct sr; simpl; try discriminate; reflexivity).
Qed.

Lemma float_sqrt_not_below (x r : float) :
  PrimFloat.leb r 0 = true -> PrimFloat.ltb (PrimFloat.sqrt x) r = false.
Proof.
  rewrite leb_spec, ltb_spec, sqrt_spec. intro H.
  apply SFnonneg_not_below; [apply SFsqrt_nonneg | exact H].
Qed.

Lemma is_finite_spec (x : float) :
  PrimFloat.is_finite x = true -> SFfinite (Prim2SF x).
Proof.
  unfold PrimFloat.is_finite, PrimFloat.is_infinity, PrimFloat.is_nan.
  rewrite !FloatAxioms.eqb_spec, abs_spec. unfold SFeqb.
  destruct (Prim2SF x) as [s | s | | s m e]; try (intros _; exact I);
    try destruct s; vm_compute; discriminate.
Qed.

Lemma SFsub_self (prec emax : Z) (x : spec_float) :
  SFfinite x -> SFsub prec emax x x = S754_zero false.
Proof.
  destruct x as [s | s | | s m e]; simpl; try tauto; intros _.
  - destruct s; reflexivity.
  - rewrite Z.sub_diag. reflexivity.
Qed.

Lemma SFsub_compare_eq (prec emax : Z) (x t : spec_float) :
  SFfinite x -> SFcompare x t = Some Eq ->
  SFabs (SFsub prec emax x t) = S754_zero false.
Proof.
  destruct x as [s1 | s1 | | s1 m1 e1], t as [s2 | s2 | | s2 m2 e2]; simpl;
    try tauto; try discriminate; intros _ H;
    try (destruct s1, s2; reflexivity);
    try (destruct s1; discriminate); try (destruct s2; discriminate).
  change (Pos.compare_cont Eq m1 m2) with (Pos.compare m1 m2) in H.
  destruct s1, s2; try discriminate;
    destruct (Z.compare_spec e1 e2); try discriminate;
    destruct (Pos.compare_spec m1 m2); try discriminate;
    subst; rewrite Z.sub_diag; reflexivity.
Qed.

Lemma float_sub_self (x : float) :
  PrimFloat.is_finite x = true -> (x - x)%float = 0%float.
Proof.
  intro H. apply Prim2SF_inj. rewrite sub_spec.
  unfold SF64sub. rewrite SFsub_self by (apply is_finite_spec; exact H).
  reflexivity.
Qed.

(** Two values that are finite and equal for [<] are at distance +0. *)
Lemma float_abs_sub_equal (x t : float) :
  PrimFloat.is_finite x = true -> PrimFloat.is_nan t = false ->
  PrimFloat.ltb x t = false -> PrimFloat.ltb t x = false ->
  PrimFloat.abs (x - t) = 0%float.
Proof.
  intros Hx Ht H1 H2.
  assert (Nx : PrimFloat.is_nan x = false).
  { unfold PrimFloat.is_finite in Hx. apply negb_true_iff, orb_false_iff in Hx. apply Hx. }
  destruct (float_ltb_false Nx Ht H1) as (c1 & E1 & N1).
  destruct (float_ltb_false Ht Nx H2) as (c2 & E2 & N2).
  pose proof (SFcompare_antisym _ _ E1) as E1'. rewrite E2 in E1'.
  assert (c2 = Eq) by (destruct c1, c2; simpl in E1'; congruence).
  subst c2.
  apply Prim2SF_inj. rewrite abs_spec, sub_spec.
  unfold SF64sub. rewrite SFsub_compare_eq; [reflexivity | | exact E2].
  apply is_finite_spec. exact Hx.
Qed.

(** ** build *)

Lemma b64_coord_not_nan (pts : list B64.Point) (i axis : nat) :
  B64.no_nan_coords pts = true ->
  PrimFloat.is_nan (B64.coord (B64.at_ pts i) axis) = false.
Proof.
  intro H. unfold B64.no_nan_coords in H. rewrite forallb_forall in H.
  unfold B64.coord, B64.at_.
  destruct (nth_in_or_default i pts []) as [Hi | ->].
  - specialize (H _ Hi). rewrite forallb_forall in H.
    destruct (nth_in_or_default axis (nth i pts []) PrimFloat.zero) as [Ha | ->].
    + apply negb_true_iff. apply H. exact Ha.
    + reflexivity.
  - destruct axis; reflexivity.
Qed.

Lemma b64_axis_less_swo (pts : list B64.Point) (axis : nat) :
  B64.no_nan_coords pts = true ->
  strict_weak_order (B64.axis_less pts axis).
Proof.
  intro H. unfold B64.axis_less.
  apply (float_ltb_swo (fun i => B64.coord (B64.at_ pts i) axis)).
  intro i. apply b64_coord_not_nan. exact H.
Qed.

Lemma b64_buildRecursive_nil (DIM : nat)
      (nth_element : list nat -> nat -> (nat -> nat -> bool) -> list nat)
      (pts : list B64.Point) (depth : nat) :
  B64.buildRecursive DIM nth_element pts [] depth = nullptr.
Proof. rewrite B64.buildRecursive_equation_1. reflexivity. Qed.

Lemma b64_buildRecursive_cons (DIM : nat)
      (nth_element : list nat -> nat -> (nat -> nat -> bool) -> list nat)
      (pts : list B64.Point) (i : nat) (rest : list nat) (depth : nat) :
  exists idx n0 n1 axis,
    B64.buildRecursive DIM nth_element pts (i :: rest) depth = mkNode idx n0 n1 axis.
Proof. rewrite B64.buildRecursive_equation_2. do 4 eexists. reflexivity. Qed.

Section B64Build.

Variable DIM : nat.
Variable nth_element : list nat -> nat -> (nat -> nat -> bool) -> list nat.
Hypothesis nth_element_ok : nth_element_contract nth_element.

Variable pts : list B64.Point.
Hypothesis pts_no_nan : B64.no_nan_coords pts = true.

(** What one call of [std::nth_element] in [buildRecursive] leaves in
    the range. *)
Lemma b64_build_step (indices : list nat) (depth : nat) :
  indices <> [] ->
  let n := length indices in
  let mid := mid_of n in
  let axis := depth mod DIM in
  let l' := nth_element indices mid (B64.axis_less pts axis) in
  let pivot := nth mid l' 0 in
  length l' = n /\
  Permutation indices (firstn mid l' ++ pivot :: skipn (mid + 1) l') /\
  firstn (n - mid - 1) (skipn (mid + 1) l') = skipn (mid + 1) l' /\
  (forall x, In x (firstn mid l') -> B64.axis_less pts axis pivot x = false) /\
  (forall x, In x (skipn (mid + 1) l') -> B64.axis_less pts axis x pivot = false).
Proof.
  intros Hne n mid axis l' pivot.
  assert (Hn : 0 < n) by (unfold n; destruct indices; simpl; [congruence | lia]).
  assert (Hmid : mid < n) by (apply mid_of_lt; assumption).
  destruct (nth_element_ok indices (@b64_axis_less_swo pts axis pts_no_nan) Hmid) as [HP Hpart].
  fold l' in HP, Hpart.
  assert (Hlen : length l' = n) by (symmetry; apply Permutation_length; assumption).
  split; [assumption |]. split; [| split; [| split]].
  - rewrite HP at 1.
    replace (mid + 1) with (S mid) by lia.
    destruct (nth_split l' 0 (n := mid)) as (l1 & l2 & E1 & E2); [lia |].
    fold pivot in E1.
    assert (F : firstn mid l' = l1).
    { rewrite E1. rewrite <- E2. rewrite firstn_app, Nat.sub_diag, firstn_all.
      simpl. apply app_nil_r. }
    assert (G : skipn (S mid) l' = l2).
    { rewrite E1 at 1. rewrite <- E2. rewrite skipn_app.
      rewrite skipn_all2 by lia.
      replace (S (length l1) - length l1) with 1 by lia. reflexivity. }
    rewrite F, G, <- E1. reflexivity.
  - apply firstn_all2. rewrite length_skipn. lia.
  - intros x Hx. apply (In_nth _ _ 0) in Hx. destruct Hx as (i & Hi & <-).
    rewrite length_firstn in Hi. rewrite nth_firstn.
    destruct (Nat.ltb_spec i mid); [| lia].
    apply (Hpart i mid); lia.
  - intros x Hx. apply (In_nth _ _ 0) in Hx. destruct Hx as (j & Hj & <-).
    rewrite length_skipn in Hj. rewrite nth_skipn.
    apply (Hpart mid (mid + 1 + j)); lia.
Qed.

Lemma b64_buildRecursive_indices (indices : list nat) (depth : nat) :
  Permutation (indices_of (B64.buildRecursive DIM nth_element pts indices depth)) indices.
Proof.
  funelim (B64.buildRecursive DIM nth_element pts indices depth); [reflexivity |].
  destruct (@b64_build_step (i :: rest) depth ltac:(discriminate))
    as (_ & HP & E & _).
  cbn [indices_of]. rewrite H, H0, E.
  etransitivity; [| symmetry; exact HP].
  apply Permutation_middle.
Qed.

Lemma b64_buildRecursive_kd_inv (indices : list nat) (depth : nat) :
  0 < DIM -> B64.kd_inv DIM pts (B64.buildRecursive DIM nth_element pts indices depth).
Proof.
  intro HD. funelim (B64.buildRecursive DIM nth_element pts indices depth); [exact I |].
  destruct (@b64_build_step (i :: rest) depth ltac:(discriminate))
    as (_ & _ & E & Hl & Hr).
  cbn [B64.kd_inv]. split; [apply Nat.mod_upper_bound; lia |].
  split; [| split; [| split; auto]].
  - intros x Hx. apply Hl. eapply Permutation_in; [apply b64_buildRecursive_indices |].
    exact Hx.
  - intros x Hx. apply Hr. rewrite <- E.
    eapply Permutation_in; [apply b64_buildRecursive_indices |]. exact Hx.
Qed.

Lemma b64_build_perm :
  Permutation (indices_of (B64.root_ (B64.build DIM nth_element pts)))
              (seq 0 (length pts)).
Proof. unfold B64.build. cbn [B64.root_]. apply b64_buildRecursive_indices. Qed.

Lemma b64_build_nodup :
  NoDup (indices_of (B64.root_ (B64.build DIM nth_element pts))).
Proof.
  apply (Permutation_NoDup (Permutation_sym b64_build_perm)).
  apply seq_NoDup.
Qed.

Lemma b64_in_build_indices (i : nat) :
  i < length pts <-> In i (indices_of (B64.root_ (B64.build DIM nth_element pts))).
Proof.
  split; intro H.
  - apply (Permutation_in _ (Permutation_sym b64_build_perm)). apply in_seq. lia.
  - apply (Permutation_in _ b64_build_perm) in H. apply in_seq in H. lia.
Qed.

Lemma b64_build_kd_inv :
  0 < DIM -> B64.kd_inv DIM pts (B64.root_ (B64.build DIM nth_element pts)).
Proof.
  intro HD. unfold B64.build. cbn [B64.root_].
  apply b64_buildRecursive_kd_inv. exact HD.
Qed.

End B64Build.

(** The tree of a single point. *)
Lemma b64_build_single
      (nth_element : list nat -> nat -> (nat -> nat -> bool) -> list nat) (x : float) :
  nth_element_contract nth_element ->
  PrimFloat.is_nan x = false ->
  B64.build 1 nth_element [[x]]
  = B64.mkKDTree (mkNode 0 nullptr nullptr 0) [[x]].
Proof.
  intros nth_element_ok Hx. unfold B64.build. cbn [length seq].
  rewrite B64.buildRecursive_equation_2.
  assert (Hswo : strict_weak_order (B64.axis_less [[x]] (0 mod 1))).
  { apply b64_axis_less_swo. unfold B64.no_nan_coords. cbn. rewrite Hx. reflexivity. }
  destruct (nth_element_ok (B64.axis_less [[x]] (0 mod 1)) [0] (mid_of (length [0]))
              Hswo ltac:(cbn; lia)) as [HP _].
  apply Permutation_length_1_inv in HP. rewrite HP.
  cbn [length mid_of Nat.sub Nat.div Nat.divmod fst nth firstn skipn Nat.add].
  rewrite !b64_buildRecursive_nil. reflexivity.
Qed.

(** ** distance *)

Section B64Distance.

Variable DIM : nat.

Lemma b64_distance_step_sym (p q : B64.Point) (l : list nat) (acc : float) :
  fold_left (B64.distance_step p q) l acc = fold_left (B64.distance_step q p) l acc.
Proof.
  revert acc. induction l as [| i l IH]; intro acc; [reflexivity |].
  cbn [fold_left]. unfold B64.distance_step at 2 4.
  rewrite (float_square_sub_sym (B64.coord p i) (B64.coord q i)). apply IH.
Qed.

Lemma b64_coord_finite (p : B64.Point) (i : nat) :
  B64.finite_coords p = true -> PrimFloat.is_finite (B64.coord p i) = true.
Proof.
  intro H. unfold B64.finite_coords in H. rewrite forallb_forall in H.
  unfold B64.coord. destruct (nth_in_or_default i p PrimFloat.zero) as [Hi | ->].
  - apply H. exact Hi.
  - reflexivity.
Qed.

Lemma b64_distance_self (p : B64.Point) :
  B64.finite_coords p = true -> B64.distance DIM p p = 0%float.
Proof.
  intro H. unfold B64.distance.
  assert (F : forall l, fold_left (B64.distance_step p p) l 0%float = 0%float).
  { induction l as [| i l IH]; [reflexivity |].
    cbn [fold_left]. unfold B64.distance_step at 2.
    rewrite (@float_sub_self _ (b64_coord_finite p i H)).
    exact IH. }
  rewrite F. reflexivity.
Qed.

End B64Distance.

(** ** rangequeryRecursive *)

Section B64Range.

Variable DIM : nat.
Variable pts : list B64.Point.
Variable query : B64.Point.

(** The subtree searched last holds points on the far side of the
    pivot only. *)
Lemma b64_far_side (idx : nat) (n0 n1 : Node) (axis i : nat) :
  B64.kd_inv DIM pts (mkNode idx n0 n1 axis) ->
  In i (indices_of (next n0 n1 (lnot (B64.side query (B64.at_ pts idx) axis)))) ->
  B64.far_side query (B64.at_ pts idx) (B64.at_ pts i) axis = true.
Proof.
  intros (_ & Hl & Hr & _) Hi. unfold B64.side, B64.far_side in *.
  unfold B64.axis_less in Hl, Hr.
  destruct (PrimFloat.ltb (B64.coord query axis) (B64.coord (B64.at_ pts idx) axis));
    cbn [next lnot] in Hi.
  - rewrite (Hr i Hi). reflexivity.
  - rewrite (Hl i Hi). reflexivity.
Qed.

Lemma b64_kd_inv_next (idx : nat) (n0 n1 : Node) (axis dir : nat) :
  B64.kd_inv DIM pts (mkNode idx n0 n1 axis) -> B64.kd_inv DIM pts (next n0 n1 dir).
Proof. intros (_ & _ & _ & H0 & H1). destruct dir; assumption. Qed.

Lemma b64_range_prune_safe_spec (range : float) :
  B64.range_prune_safe DIM pts query range = true ->
  forall t i axis,
    t < length pts -> i < length pts -> axis < DIM ->
    B64.far_side query (B64.at_ pts t) (B64.at_ pts i) axis = true ->
    PrimFloat.ltb (B64.diff query (B64.at_ pts t) axis) range = false ->
    PrimFloat.ltb (B64.distance DIM query (B64.at_ pts i)) range = false.
Proof.
  intros H t i axis Ht Hi Ha Hf Hd. unfold B64.range_prune_safe in H.
  rewrite forallb_forall in H. specialize (H t ltac:(apply in_seq; lia)).
  rewrite forallb_forall in H. specialize (H i ltac:(apply in_seq; lia)).
  rewrite forallb_forall in H. specialize (H axis ltac:(apply in_seq; lia)).
  rewrite Hf, Hd in H. simpl in H. apply negb_true_iff in H. exact H.
Qed.

(** The result extends the sequence received. *)
Lemma b64_rangequeryRecursive_app (range : float) (node : Node) (indices : list nat) :
  exists found,
    B64.rangequeryRecursive DIM pts query node indices range = indices ++ found.
Proof.
  revert indices. induction node as [| idx n0 IH0 n1 IH1 axis]; intro indices.
  - exists []. simpl. rewrite app_nil_r. reflexivity.
  - assert (IH : forall dir acc, exists found,
               B64.rangequeryRecursive DIM pts query (next n0 n1 dir) acc range
               = acc ++ found)
      by (intros [| d]; cbn [next]; auto).
    cbn [B64.rangequeryRecursive].
    set (acc1 := if PrimFloat.ltb _ range then indices ++ [idx] else indices).
    assert (H1 : exists f1, acc1 = indices ++ f1).
    { unfold acc1. destruct (PrimFloat.ltb _ range);
        [exists [idx] | exists []; rewrite app_nil_r]; reflexivity. }
    destruct H1 as (f1 & ->).
    destruct (IH (B64.side query (B64.at_ pts idx) axis) (indices ++ f1)) as (f2 & ->).
    destruct (PrimFloat.ltb _ range).
    + destruct (IH (lnot (B64.side query (B64.at_ pts idx) axis))
                   ((indices ++ f1) ++ f2)) as (f3 & ->).
      exists (f1 ++ f2 ++ f3). rewrite <- !app_assoc. reflexivity.
    + exists (f1 ++ f2). rewrite <- !app_assoc. reflexivity.
Qed.

(** What [rangequeryRecursive] appends: indices of the subtree whose
    computed distance is below the radius, each once; all of them when
    the pruning test is safe. *)
Lemma b64_rangequeryRecursive_spec (range : float) (node : Node) :
  B64.kd_inv DIM pts node ->
  (forall i, In i (indices_of node) -> i < length pts) ->
  forall indices : list nat,
  exists found : list nat,
    B64.rangequeryRecursive DIM pts query node indices range = indices ++ found /\
    (forall i, In i found ->
               In i (indices_of node) /\
               PrimFloat.ltb (B64.distance DIM query (B64.at_ pts i)) range = true) /\
    (NoDup (indices_of node) -> NoDup found) /\
    (B64.range_prune_safe DIM pts query range = true ->
     forall i, In i (indices_of node) ->
               PrimFloat.ltb (B64.distance DIM query (B64.at_ pts i)) range = true ->
               In i found).
Proof.
  induction node as [| idx n0 IH0 n1 IH1 axis]; intros Hinv Hval indices.
  - exists []. simpl. rewrite app_nil_r.
    split; [reflexivity |]. split; [tauto |]. split; [constructor | tauto].
  - assert (IH : forall dir indices,
               exists found : list nat,
                 B64.rangequeryRecursive DIM pts query (next n0 n1 dir) indices range
                 = indices ++ found /\
                 (forall i, In i found ->
                            In i (indices_of (next n0 n1 dir)) /\
                            PrimFloat.ltb (B64.distance DIM query (B64.at_ pts i)) range = true) /\
                 (NoDup (indices_of (next n0 n1 dir)) -> NoDup found) /\
                 (B64.range_prune_safe DIM pts query range = true ->
                  forall i, In i (indices_of (next n0 n1 dir)) ->
                            PrimFloat.ltb (B64.distance DIM query (B64.at_ pts i)) range = true ->
                            In i found)).
    { intros dir. pose proof (@b64_kd_inv_next idx n0 n1 axis dir Hinv).
      assert (forall i, In i (indices_of (next n0 n1 dir)) -> i < length pts).
      { intros i Hi. apply Hval. simpl. right. apply in_or_app.
        destruct dir; simpl in Hi; auto. }
      destruct dir; simpl in *; auto. }
    clear IH0 IH1.
    pose proof (fun i => @b64_far_side idx n0 n1 axis i Hinv) as Hfar.
    assert (Haxis : axis < DIM) by (destruct Hinv; assumption).
    assert (Hidx : idx < length pts) by (apply Hval; left; reflexivity).
    cbn [B64.rangequeryRecursive].
    set (train := B64.at_ pts idx) in *.
    set (dir := B64.side query train axis) in *.
    assert (H1 : exists f1,
               (if PrimFloat.ltb (B64.distance DIM query train) range
                then indices ++ [idx] else indices) = indices ++ f1 /\
               (forall i, In i f1 <->
                          i = idx /\
                          PrimFloat.ltb (B64.distance DIM query (B64.at_ pts i)) range = true) /\
               NoDup f1).
    { destruct (PrimFloat.ltb (B64.distance DIM query train) range) eqn:E.
      - exists [idx]. split; [reflexivity |].
        split; [| repeat constructor; simpl; tauto].
        intro i. simpl. split.
        + intros [<- | []]. split; [reflexivity | exact E].
        + intros [-> _]. left. reflexivity.
      - exists []. rewrite app_nil_r.
        split; [reflexivity |]. split; [| constructor].
        intro i. simpl. split; [tauto |]. intros [-> H]. fold train in H. congruence. }
    destruct H1 as (f1 & -> & Hf1 & Hnd1).
    destruct (IH dir (indices ++ f1)) as (f2 & -> & Hf2 & Hnd2 & Hc2).
    assert (H3 : exists f3,
               (if PrimFloat.ltb (B64.diff query train axis) range
                then B64.rangequeryRecursive DIM pts query (next n0 n1 (lnot dir))
                                         ((indices ++ f1) ++ f2) range
                else (indices ++ f1) ++ f2) = ((indices ++ f1) ++ f2) ++ f3 /\
               (forall i, In i f3 ->
                          In i (indices_of (next n0 n1 (lnot dir))) /\
                          PrimFloat.ltb (B64.distance DIM query (B64.at_ pts i)) range = true) /\
               (NoDup (indices_of (next n0 n1 (lnot dir))) -> NoDup f3) /\
               (B64.range_prune_safe DIM pts query range = true ->
                forall i, In i (indices_of (next n0 n1 (lnot dir))) ->
                          PrimFloat.ltb (B64.distance DIM query (B64.at_ pts i)) range = true ->
                          In i f3)).
    { destruct (PrimFloat.ltb (B64.diff query train axis) range) eqn:E.
      - apply IH.
      - exists []. rewrite app_nil_r.
        split; [reflexivity |]. split; [intros i [] |]. split; [constructor |].
        intros Hsafe i Hi Hd. exfalso.
        assert (Hiv : i < length pts).
        { apply Hval. simpl. right. apply in_or_app.
          destruct (lnot dir); simpl in Hi; auto. }
        pose proof (b64_range_prune_safe_spec Hsafe Hidx Hiv Haxis (Hfar i Hi) E).
        congruence. }
    destruct H3 as (f3 & -> & Hf3 & Hnd3 & Hc3).
    exists (f1 ++ f2 ++ f3). split; [rewrite <- !app_assoc; reflexivity |].
    split; [| split].
    + intros i Hi. rewrite (in_indices_node i idx n0 n1 axis dir).
      rewrite !in_app_iff in Hi. destruct Hi as [Hi | [Hi | Hi]].
      * apply Hf1 in Hi. tauto.
      * apply Hf2 in Hi. tauto.
      * apply Hf3 in Hi. tauto.
    + intro Hnd. apply (@nodup_node_split idx n0 n1 axis dir) in Hnd.
      destruct Hnd as (Ha & Hb & Hc & Hd & He).
      apply NoDup_app; [assumption | | ].
      * apply NoDup_app; auto.
        intros i Hi2 Hi3. apply Hf2 in Hi2. apply Hf3 in Hi3.
        apply (He i); tauto.
      * intros i Hi1 Hi23. apply Hf1 in Hi1. destruct Hi1 as [-> _].
        apply in_app_iff in Hi23. destruct Hi23 as [Hi | Hi].
        -- apply Hf2 in Hi. tauto.
        -- apply Hf3 in Hi. tauto.
    + intros Hsafe i Hi Hd. rewrite (in_indices_node i idx n0 n1 axis dir) in Hi.
      rewrite !in_app_iff. destruct Hi as [-> | [Hi | Hi]].
      * left. apply Hf1. tauto.
      * right. left. apply Hc2; assumption.
      * right. right. apply Hc3; assumption.
Qed.

(** One point is found when it is within the radius and the pruning test
    passes at every pivot that has it on its far side. *)
Lemma b64_rangequeryRecursive_finds (range : float) (i : nat) (node : Node) :
  B64.kd_inv DIM pts node ->
  In i (indices_of node) ->
  PrimFloat.ltb (B64.distance DIM query (B64.at_ pts i)) range = true ->
  (forall t axis,
      B64.far_side query (B64.at_ pts t) (B64.at_ pts i) axis = true ->
      PrimFloat.ltb (B64.diff query (B64.at_ pts t) axis) range = true) ->
  forall indices, In i (B64.rangequeryRecursive DIM pts query node indices range).
Proof.
  intros Hinv Hi Hd Hfar_ok.
  induction node as [| idx n0 IH0 n1 IH1 axis]; intro indices; [destruct Hi |].
  assert (IH : forall dir acc,
             In i (indices_of (next n0 n1 dir)) ->
             In i (B64.rangequeryRecursive DIM pts query (next n0 n1 dir) acc range)).
  { intros dir acc Hin. pose proof (@b64_kd_inv_next idx n0 n1 axis dir Hinv).
    destruct dir; cbn [next] in *; auto. }
  pose proof (@b64_far_side idx n0 n1 axis i Hinv) as Hfar.
  cbn [B64.rangequeryRecursive].
  set (train := B64.at_ pts idx) in *.
  set (dir := B64.side query train axis) in *.
  set (acc1 := if PrimFloat.ltb (B64.distance DIM query train) range
               then indices ++ [idx] else indices).
  destruct (b64_rangequeryRecursive_app range (next n0 n1 dir) acc1)
    as (f2 & E2).
  rewrite E2.
  assert (Hkeep : forall acc,
             In i acc ->
             In i (if PrimFloat.ltb (B64.diff query train axis) range
                   then B64.rangequeryRecursive DIM pts query (next n0 n1 (lnot dir))
                                               acc range
                   else acc)).
  { intros acc Hacc. destruct (PrimFloat.ltb (B64.diff query train axis) range);
      [| exact Hacc].
    destruct (b64_rangequeryRecursive_app range
                (next n0 n1 (lnot dir)) acc) as (f3 & ->).
    apply in_or_app. left. exact Hacc. }
  rewrite (in_indices_node i idx n0 n1 axis dir) in Hi.
  destruct Hi as [-> | [Hi | Hi]].
  - apply Hkeep. apply in_or_app. left. unfold acc1. fold train in Hd. rewrite Hd.
    apply in_or_app. right. left. reflexivity.
  - apply Hkeep. rewrite <- E2. apply IH. exact Hi.
  - pose proof (Hfar_ok idx axis (Hfar Hi)) as Hgo. fold train in Hgo.
    rewrite Hgo. apply IH. exact Hi.
Qed.

Lemma b64_rangequeryRecursive_nonpositive (range : float) (node : Node) :
  PrimFloat.leb range 0 = true ->
  forall indices,
    B64.rangequeryRecursive DIM pts query node indices range = indices.
Proof.
  intro Hr. induction node as [| idx n0 IH0 n1 IH1 axis]; intro indices; [reflexivity |].
  cbn [B64.rangequeryRecursive].
  assert (E : PrimFloat.ltb (B64.distance DIM query (B64.at_ pts idx)) range = false)
    by (unfold B64.distance; apply float_sqrt_not_below; exact Hr).
  rewrite E.
  assert (IH : forall dir acc,
             B64.rangequeryRecursive DIM pts query (next n0 n1 dir) acc range = acc)
    by (intros [| d]; cbn [next]; auto).
  rewrite !IH. destruct (PrimFloat.ltb (B64.diff _ _ _) range); reflexivity.
Qed.

Lemma b64_rangequeryRecursive_monotone (r1 r2 : float) (node : Node) :
  PrimFloat.leb r1 r2 = true ->
  forall acc1 acc2,
    incl acc1 acc2 ->
    incl (B64.rangequeryRecursive DIM pts query node acc1 r1)
         (B64.rangequeryRecursive DIM pts query node acc2 r2).
Proof.
  intro Hr. induction node as [| idx n0 IH0 n1 IH1 axis]; intros acc1 acc2 Hacc;
    [exact Hacc |].
  assert (IH : forall dir acc1 acc2,
             incl acc1 acc2 ->
             incl (B64.rangequeryRecursive DIM pts query (next n0 n1 dir) acc1 r1)
                  (B64.rangequeryRecursive DIM pts query (next n0 n1 dir) acc2 r2))
    by (intros [| d]; cbn [next]; auto).
  cbn [B64.rangequeryRecursive].
  set (train := B64.at_ pts idx). set (dir := B64.side query train axis).
  assert (H1 : incl (if PrimFloat.ltb (B64.distance DIM query train) r1
                     then acc1 ++ [idx] else acc1)
                    (if PrimFloat.ltb (B64.distance DIM query train) r2
                     then acc2 ++ [idx] else acc2)).
  { destruct (PrimFloat.ltb (B64.distance DIM query train) r1) eqn:E1.
    - rewrite (float_ltb_leb_trans E1 Hr).
      apply incl_app_app; [exact Hacc | apply incl_refl].
    - destruct (PrimFloat.ltb (B64.distance DIM query train) r2);
        [apply incl_appl |]; exact Hacc. }
  pose proof (IH dir _ _ H1) as H2.
  destruct (PrimFloat.ltb (B64.diff query train axis) r1) eqn:E1.
  - rewrite (float_ltb_leb_trans E1 Hr). apply IH. exact H2.
  - destruct (PrimFloat.ltb (B64.diff query train axis) r2); [| exact H2].
    match goal with
    | |- incl _ (B64.rangequeryRecursive DIM pts query ?n ?a r2) =>
        destruct (b64_rangequeryRecursive_app r2 n a) as (f & ->)
    end.
    apply incl_appl. exact H2.
Qed.

End B64Range.

(** ** nnSearchRecursive *)

Section B64Nearest.

Variable DIM : nat.
Variable pts : list B64.Point.
Variable query : B64.Point.

(** Two runs of [nnSearchRecursive] that differ in [*guess] alone end in
    the same state, unless neither writes [*guess]. *)
Lemma b64_nnSearchRecursive_guess (node : Node) :
  forall (g1 g2 : nat) (m : float),
    (B64.nnSearchRecursive DIM pts query node g1 m = (g1, m) /\
     B64.nnSearchRecursive DIM pts query node g2 m = (g2, m)) \/
    B64.nnSearchRecursive DIM pts query node g1 m
    = B64.nnSearchRecursive DIM pts query node g2 m.
Proof.
  induction node as [| idx n0 IH0 n1 IH1 axis]; intros g1 g2 m.
  - left. split; reflexivity.
  - assert (IH : forall dir g1 g2 m,
               (B64.nnSearchRecursive DIM pts query (next n0 n1 dir) g1 m = (g1, m) /\
                B64.nnSearchRecursive DIM pts query (next n0 n1 dir) g2 m = (g2, m)) \/
               B64.nnSearchRecursive DIM pts query (next n0 n1 dir) g1 m
               = B64.nnSearchRecursive DIM pts query (next n0 n1 dir) g2 m)
      by (intros [| d]; cbn [next]; auto).
    clear IH0 IH1. cbn [B64.nnSearchRecursive].
    set (train := B64.at_ pts idx).
    set (dir := B64.side query train axis).
    destruct (PrimFloat.ltb (B64.distance DIM query train) m); [right; reflexivity |].
    destruct (IH dir g1 g2 m) as [[E1 E2] | E]; [| right; rewrite E; reflexivity].
    rewrite E1, E2.
    destruct (PrimFloat.ltb (B64.diff query train axis) m); [| left; split; reflexivity].
    apply IH.
Qed.

(** What a run leaves in [*guess] and [*minDist]: either both are
    untouched, or [*guess] is an index of the subtree, [*minDist] is its
    computed distance, and that distance is below the initial
    [*minDist]. *)
Lemma b64_nnSearchRecursive_result (node : Node) :
  forall (g : nat) (m : float),
    let r := B64.nnSearchRecursive DIM pts query node g m in
    r = (g, m) \/
    (In (fst r) (indices_of node) /\
     snd r = B64.distance DIM query (B64.at_ pts (fst r)) /\
     PrimFloat.ltb (snd r) m = true).
Proof.
  induction node as [| idx n0 IH0 n1 IH1 axis]; intros g m r.
  - left. reflexivity.
  - assert (IH : forall dir g m,
               let r := B64.nnSearchRecursive DIM pts query (next n0 n1 dir) g m in
               r = (g, m) \/
               (In (fst r) (indices_of (next n0 n1 dir)) /\
                snd r = B64.distance DIM query (B64.at_ pts (fst r)) /\
                PrimFloat.ltb (snd r) m = true))
      by (intros [| d]; cbn [next]; auto).
    clear IH0 IH1. unfold r. clear r. cbn [B64.nnSearchRecursive].
    set (train := B64.at_ pts idx).
    set (dir := B64.side query train axis).
    assert (H1 : exists g1 m1,
               (if PrimFloat.ltb (B64.distance DIM query train) m
                then (idx, B64.distance DIM query train) else (g, m)) = (g1, m1) /\
               ((g1, m1) = (g, m) \/
                (g1 = idx /\ m1 = B64.distance DIM query (B64.at_ pts g1) /\
                 PrimFloat.ltb m1 m = true))).
    { destruct (PrimFloat.ltb (B64.distance DIM query train) m) eqn:E.
      - exists idx, (B64.distance DIM query train). split; [reflexivity |]. right. auto.
      - exists g, m. split; [reflexivity |]. left. reflexivity. }
    destruct H1 as (g1 & m1 & -> & H1).
    pose proof (IH dir g1 m1) as H2. cbn zeta in H2.
    destruct (B64.nnSearchRecursive DIM pts query (next n0 n1 dir) g1 m1) as [g2 m2].
    cbn [fst snd] in H2.
    assert (H12 : (g2, m2) = (g, m) \/
                  (In g2 (indices_of (mkNode idx n0 n1 axis)) /\
                   m2 = B64.distance DIM query (B64.at_ pts g2) /\
                   PrimFloat.ltb m2 m = true)).
    { destruct H2 as [E | (Hin & He & Hlt)].
      - injection E as -> ->. destruct H1 as [E | (-> & He & Hlt)]; [left; exact E |].
        right. split; [left; reflexivity | split; assumption].
      - right. split; [apply (in_indices_node g2 idx n0 n1 axis dir); tauto |].
        split; [exact He |].
        destruct H1 as [E | (_ & _ & Hlt1)].
        + injection E as _ <-. exact Hlt.
        + eapply float_ltb_trans; eassumption. }
    destruct (PrimFloat.ltb (B64.diff query train axis) m2); [| exact H12].
    pose proof (IH (lnot dir) g2 m2) as H3. cbn zeta in H3.
    destruct (B64.nnSearchRecursive DIM pts query (next n0 n1 (lnot dir)) g2 m2)
      as [g3 m3].
    cbn [fst snd] in *.
    destruct H3 as [E | (Hin & He & Hlt)].
    + injection E as -> ->. exact H12.
    + right. split; [apply (in_indices_node g3 idx n0 n1 axis dir); tauto |].
      split; [exact He |].
      destruct H12 as [E | (_ & _ & Hlt2)].
      * injection E as _ <-. exact Hlt.
      * eapply float_ltb_trans; eassumption.
Qed.

(** A run never raises [*minDist] above zero once it is not above zero. *)
Lemma b64_nnSearchRecursive_keeps_zero (node : Node) (g : nat) (m : float) :
  PrimFloat.ltb 0 m = false ->
  PrimFloat.ltb 0 (snd (B64.nnSearchRecursive DIM pts query node g m)) = false.
Proof.
  intro H. destruct (b64_nnSearchRecursive_result node g m) as [-> | (_ & _ & Hlt)];
    [exact H |].
  destruct (PrimFloat.ltb 0 (snd (B64.nnSearchRecursive DIM pts query node g m))) eqn:E;
    [| reflexivity].
  rewrite (float_ltb_trans E Hlt) in H. discriminate.
Qed.

(** A point at computed distance +0 that no pruning test can hide brings
    [*minDist] down to zero. *)
Lemma b64_nnSearchRecursive_reaches_zero (j : nat) (node : Node) :
  B64.kd_inv DIM pts node ->
  In j (indices_of node) ->
  B64.distance DIM query (B64.at_ pts j) = 0%float ->
  (forall t axis,
      B64.far_side query (B64.at_ pts t) (B64.at_ pts j) axis = true ->
      B64.diff query (B64.at_ pts t) axis = 0%float) ->
  forall (g : nat) (m : float),
    PrimFloat.ltb 0 (snd (B64.nnSearchRecursive DIM pts query node g m)) = false.
Proof.
  intros Hinv Hj Hd Hfar_ok.
  induction node as [| idx n0 IH0 n1 IH1 axis]; intros g m; [destruct Hj |].
  assert (IH : forall dir g m,
             In j (indices_of (next n0 n1 dir)) ->
             PrimFloat.ltb 0 (snd (B64.nnSearchRecursive DIM pts query
                                      (next n0 n1 dir) g m)) = false).
  { intros dir g' m' Hin. pose proof (@b64_kd_inv_next DIM pts idx n0 n1 axis dir Hinv).
    destruct dir; cbn [next] in *; auto. }
  pose proof (@b64_far_side DIM pts query idx n0 n1 axis j Hinv) as Hfar.
  clear IH0 IH1. cbn [B64.nnSearchRecursive].
  set (train := B64.at_ pts idx) in *.
  set (dir := B64.side query train axis) in *.
  set (s1 := if PrimFloat.ltb (B64.distance DIM query train) m
             then (idx, B64.distance DIM query train) else (g, m)).
  destruct s1 as [g1 m1] eqn:Es1.
  rewrite (in_indices_node j idx n0 n1 axis dir) in Hj.
  assert (Hfin : forall g2 m2,
             PrimFloat.ltb 0 m2 = false ->
             PrimFloat.ltb 0
               (snd (if PrimFloat.ltb (B64.diff query train axis) m2
                     then B64.nnSearchRecursive DIM pts query (next n0 n1 (lnot dir)) g2 m2
                     else (g2, m2))) = false).
  { intros g2 m2 H2. destruct (PrimFloat.ltb (B64.diff query train axis) m2);
      [apply b64_nnSearchRecursive_keeps_zero |]; exact H2. }
  destruct Hj as [-> | [Hj | Hj]].
  - assert (H1 : PrimFloat.ltb 0 m1 = false).
    { unfold s1 in Es1. fold train in Hd. rewrite Hd in Es1.
      destruct (PrimFloat.ltb 0 m) eqn:E; injection Es1 as _ <-;
        [reflexivity | exact E]. }
    pose proof (b64_nnSearchRecursive_keeps_zero (next n0 n1 dir) g1 H1) as H2.
    destruct (B64.nnSearchRecursive DIM pts query (next n0 n1 dir) g1 m1) as [g2 m2].
    apply Hfin. exact H2.
  - pose proof (IH dir g1 m1 Hj) as H2.
    destruct (B64.nnSearchRecursive DIM pts query (next n0 n1 dir) g1 m1) as [g2 m2].
    apply Hfin. exact H2.
  - destruct (B64.nnSearchRecursive DIM pts query (next n0 n1 dir) g1 m1) as [g2 m2].
    pose proof (Hfar_ok idx axis (Hfar Hj)) as E0. fold train in E0. rewrite E0.
    destruct (PrimFloat.ltb 0 m2) eqn:E2; [apply IH; exact Hj | exact E2].
Qed.

(** Nothing is written when no point of the subtree is below [*minDist]. *)
Lemma b64_nnSearchRecursive_unwritten (node : Node) (guess : nat) (minDist : float) :
  (forall j, In j (indices_of node) ->
             PrimFloat.ltb (B64.distance DIM query (B64.at_ pts j)) minDist = false) ->
  B64.nnSearchRecursive DIM pts query node guess minDist = (guess, minDist).
Proof.
  induction node as [| idx n0 IH0 n1 IH1 axis]; intro H; [reflexivity |].
  cbn [B64.nnSearchRecursive].
  rewrite (H idx (or_introl eq_refl)).
  assert (IH : forall dir,
             B64.nnSearchRecursive DIM pts query (next n0 n1 dir) guess minDist
             = (guess, minDist)).
  { intros [| d]; cbn [next]; [apply IH0 | apply IH1]; intros j Hj; apply H;
      simpl; right; apply in_or_app; auto. }
  rewrite !IH. destruct (PrimFloat.ltb (B64.diff _ _ _) minDist); reflexivity.
Qed.

End B64Nearest.

(** ** knnSearchRecursive *)

Lemma ordered_insert_map (A B : Type) (comp : B -> B -> bool) (f : A -> B)
      (x : A) (l : list A) :
  ordered_insert comp (f x) (map f l)
  = map f (ordered_insert (fun a b => comp (f a) (f b)) x l).
Proof.
  induction l as [| y l IH]; simpl; [reflexivity |].
  destruct (comp (f x) (f y)); simpl; [reflexivity |]. rewrite IH. reflexivity.
Qed.

Lemma last_map (A B : Type) (f : A -> B) (l : list A) (a : A) :
  last (map f l) (f a) = f (last l a).
Proof.
  revert a. induction l as [| b l IH]; intro a; [reflexivity |].
  cbn [map]. rewrite !last_cons. apply IH.
Qed.

Section B64Knn.

Variable DIM : nat.
Variable pts : list B64.Point.
Variable query : B64.Point.
Hypothesis dist_ok : B64.no_nan_distances DIM pts query = true.

Lemma b64_distance_not_nan (i : nat) :
  i < length pts ->
  PrimFloat.is_nan (B64.distance DIM query (B64.at_ pts i)) = false.
Proof.
  intro Hi. unfold B64.no_nan_distances in dist_ok.
  rewrite forallb_forall in dist_ok. apply negb_true_iff. apply dist_ok.
  unfold B64.at_. apply nth_In. exact Hi.
Qed.

Lemma b64_entry_less_asym (i j : nat) :
  B64.entry_less DIM pts query i j = true -> B64.entry_less DIM pts query j i = false.
Proof.
  unfold B64.entry_less, B64.pair_less, B64.entry. cbn [fst snd].
  set (di := B64.distance DIM query (B64.at_ pts i)).
  set (dj := B64.distance DIM query (B64.at_ pts j)).
  intro H. apply orb_true_iff in H. apply orb_false_iff.
  destruct H as [H | H].
  - assert (Hji : PrimFloat.ltb dj di = false).
    { destruct (PrimFloat.ltb dj di) eqn:E; [| reflexivity].
      rewrite <- (float_ltb_irrefl di). symmetry.
      eapply float_ltb_trans; eassumption. }
    split; [exact Hji |]. rewrite H. reflexivity.
  - apply andb_true_iff in H. destruct H as [H1 H2].
    apply negb_true_iff in H1. apply Nat.ltb_lt in H2.
    split; [exact H1 |]. apply andb_false_iff. right. apply Nat.ltb_ge. lia.
Qed.

Lemma b64_entry_less_false_dist (i j : nat) :
  B64.entry_less DIM pts query i j = false -> B64.dist_less DIM pts query i j = false.
Proof.
  unfold B64.entry_less, B64.pair_less, B64.entry, B64.dist_less. cbn [fst snd].
  intro H. apply orb_false_iff in H. apply H.
Qed.

Lemma b64_entry_less_ge_trans (x y z : nat) :
  x < length pts -> y < length pts -> z < length pts ->
  B64.entry_less DIM pts query y x = false ->
  B64.entry_less DIM pts query z y = false ->
  B64.entry_less DIM pts query z x = false.
Proof.
  intros Hx Hy Hz.
  pose proof (b64_distance_not_nan Hx) as Nx.
  pose proof (b64_distance_not_nan Hy) as Ny.
  pose proof (b64_distance_not_nan Hz) as Nz.
  unfold B64.entry_less, B64.pair_less, B64.entry. cbn [fst snd].
  set (dx := B64.distance DIM query (B64.at_ pts x)) in *.
  set (dy := B64.distance DIM query (B64.at_ pts y)) in *.
  set (dz := B64.distance DIM query (B64.at_ pts z)) in *.
  intros Hyx Hzy. apply orb_false_iff in Hyx, Hzy.
  destruct Hyx as [Hyx Hyx'], Hzy as [Hzy Hzy'].
  apply orb_false_iff. split.
  - apply float_ltb_ge_trans with (y := dy); assumption.
  - apply andb_false_iff.
    destruct (PrimFloat.ltb dx dz) eqn:Hxz; [left; reflexivity | right].
    apply Nat.ltb_ge.
    assert (Hxy : PrimFloat.ltb dx dy = false).
    { destruct (PrimFloat.ltb dx dy) eqn:E; [| reflexivity].
      rewrite (float_ltb_le_trans Nz E Hzy) in Hxz. discriminate. }
    assert (Hyz : PrimFloat.ltb dy dz = false).
    { destruct (PrimFloat.ltb dy dz) eqn:E; [| reflexivity].
      rewrite (float_le_ltb_trans Nx Hyx E) in Hxz. discriminate. }
    rewrite Hxy in Hyx'. rewrite Hyz in Hzy'. simpl in Hyx', Hzy'.
    apply Nat.ltb_ge in Hyx', Hzy'. lia.
Qed.

Lemma b64_ordered_insert_sorted (x : nat) (l : list nat) :
  x < length pts -> (forall i, In i l -> i < length pts) ->
  StronglySorted (fun i j => B64.entry_less DIM pts query j i = false) l ->
  StronglySorted (fun i j => B64.entry_less DIM pts query j i = false)
                 (ordered_insert (B64.entry_less DIM pts query) x l).
Proof.
  intros Hx Hl Hs. induction Hs as [| y l Hs IH Hy]; simpl.
  - repeat constructor.
  - assert (Hyv : y < length pts) by (apply Hl; left; reflexivity).
    assert (Hlv : forall i, In i l -> i < length pts) by (intros; apply Hl; right; assumption).
    destruct (B64.entry_less DIM pts query x y) eqn:E.
    + constructor; [constructor; assumption |].
      constructor; [apply b64_entry_less_asym; assumption |].
      rewrite Forall_forall in *. intros b Hb.
      apply b64_entry_less_ge_trans with (y := y); auto.
      apply b64_entry_less_asym; assumption.
    + constructor; [apply IH; assumption |].
      rewrite Forall_forall in *. intros b Hb.
      apply Permutation_in with (l' := x :: l) in Hb;
        [| symmetry; apply ordered_insert_perm].
      destruct Hb as [<- | Hb]; auto.
Qed.

Lemma b64_insert_firstn_bound (kept : list nat) (x r : nat) :
  x < length pts -> r < length pts -> (forall i, In i kept -> i < length pts) ->
  (forall i, In i kept -> B64.dist_less DIM pts query r i = false) ->
  forall i, In i (firstn (length kept)
                         (ordered_insert (B64.entry_less DIM pts query) x kept)) ->
            B64.dist_less DIM pts query r i = false.
Proof.
  intros Hx Hr. induction kept as [| a kept IH]; intros Hv HE i Hi; [destruct Hi |].
  simpl in Hi. destruct (B64.entry_less DIM pts query x a) eqn:Hxa; simpl in Hi.
  - destruct Hi as [<- | Hi].
    + apply b64_entry_less_asym, b64_entry_less_false_dist in Hxa.
      pose proof (HE a (or_introl eq_refl)) as Hra.
      unfold B64.dist_less in *.
      apply float_ltb_ge_trans with (y := B64.distance DIM query (B64.at_ pts a));
        auto using b64_distance_not_nan.
      apply b64_distance_not_nan. apply Hv. left. reflexivity.
    + apply HE. eapply In_firstn_In. exact Hi.
  - destruct Hi as [<- | Hi].
    + apply HE. left. reflexivity.
    + apply IH; [| | assumption]; intros g Hg; [apply Hv | apply HE]; right; assumption.
Qed.

Lemma b64_topk_perm (k : nat) (seen seen' kept : list nat) :
  Permutation seen seen' ->
  B64.topk DIM pts query k seen kept -> B64.topk DIM pts query k seen' kept.
Proof.
  intros HP (Hv & Hs & Hl & rest & Hp & Hfull & Hord).
  split; [| split; [assumption | split; [assumption |]]].
  - intros i Hi. apply Hv. apply (Permutation_in _ (Permutation_sym HP)). exact Hi.
  - exists rest. split; [| split; assumption].
    rewrite <- HP. assumption.
Qed.

Lemma b64_topk_nil (k : nat) : B64.topk DIM pts query k [] [].
Proof.
  split; [intros i [] |]. split; [constructor | split; [simpl; lia |]].
  exists []. split; [reflexivity | split; [congruence | intros _ ? ? []]].
Qed.

(** [push] keeps the invariant. *)
Lemma b64_topk_push (k : nat) (seen kept : list nat) (x : nat) :
  x < length pts ->
  B64.topk DIM pts query k seen kept ->
  B64.topk DIM pts query k (x :: seen)
           (firstn k (ordered_insert (B64.entry_less DIM pts query) x kept)).
Proof.
  intros Hx (Hv & Hs & Hl & rest & Hp & Hfull & Hord).
  set (I := ordered_insert (B64.entry_less DIM pts query) x kept).
  assert (Hkv : forall i, In i kept -> i < length pts).
  { intros i Hi. apply Hv. apply (Permutation_in _ (Permutation_sym Hp)).
    apply in_or_app. left. exact Hi. }
  assert (Hrv : forall i, In i rest -> i < length pts).
  { intros i Hi. apply Hv. apply (Permutation_in _ (Permutation_sym Hp)).
    apply in_or_app. right. exact Hi. }
  assert (HI : StronglySorted (fun i j => B64.entry_less DIM pts query j i = false) I)
    by (apply b64_ordered_insert_sorted; assumption).
  assert (HlI : length I = S (length kept)) by apply ordered_insert_length.
  rewrite <- (firstn_skipn k I) in HI.
  apply StronglySorted_app_inv in HI. destruct HI as (HI1 & _ & HI3).
  split; [intros i [<- | Hi]; auto |].
  split; [assumption |]. split; [apply firstn_le_length |].
  exists (skipn k I ++ rest). split; [| split].
  - rewrite app_assoc, firstn_skipn. unfold I.
    rewrite <- ordered_insert_perm. simpl. constructor. assumption.
  - intro Hne. rewrite length_firstn, HlI.
    destruct (Nat.eq_dec (length kept) k) as [| Hlt]; [lia |].
    rewrite skipn_all2 in Hne by lia. simpl in Hne.
    specialize (Hfull Hne). lia.
  - intros Hsafe i j Hi Hj. apply in_app_iff in Hj. destruct Hj as [Hj | Hj].
    + apply b64_entry_less_false_dist. apply HI3; assumption.
    + assert (Hk : length kept = k)
        by (apply Hfull; intro C; rewrite C in Hj; destruct Hj).
      rewrite <- Hk in Hi.
      apply b64_insert_firstn_bound with (kept := kept) (x := x); auto.
Qed.

(** Indices known to be no closer than a full queue's entries may be
    left out. *)
Lemma b64_topk_skip (k : nat) (seen kept X : list nat) :
  B64.topk DIM pts query k seen kept -> length kept = k ->
  (forall x, In x X -> x < length pts) ->
  (B64.knn_prune_safe DIM pts query = true ->
   forall x i, In x X -> In i kept -> B64.dist_less DIM pts query x i = false) ->
  B64.topk DIM pts query k (seen ++ X) kept.
Proof.
  intros (Hv & Hs & Hl & rest & Hp & Hfull & Hord) Hk HXv HX.
  split; [| split; [assumption | split; [assumption |]]].
  - intros i Hi. apply in_app_iff in Hi. destruct Hi; auto.
  - exists (rest ++ X). split; [| split].
    + rewrite app_assoc. apply Permutation_app_tail. assumption.
    + intros _. assumption.
    + intros Hsafe i j Hi Hj. apply in_app_iff in Hj. destruct Hj; auto.
Qed.

(** The entry [back()] returns belongs to a kept index that no kept index
    is above. *)
Lemma b64_topk_worst (k : nat) (seen kept : list nat) (worst : float * nat) :
  B64.topk DIM pts query k seen kept ->
  back (mkQueue k (map (B64.entry DIM pts query) kept)) = Some worst ->
  exists w, worst = B64.entry DIM pts query w /\ In w kept /\ w < length pts /\
            forall i, In i kept -> B64.dist_less DIM pts query w i = false.
Proof.
  intros (Hv & Hs & _ & rest & Hp & _) Hb. unfold back in Hb. cbn [elements_] in Hb.
  destruct kept as [| a kept]; [discriminate |]. cbn [map] in Hb.
  injection Hb as <-. rewrite last_map.
  exists (last kept a). split; [reflexivity |].
  assert (Hw : In (last kept a) (a :: kept)) by apply last_In.
  split; [exact Hw |]. split.
  - apply Hv. apply (Permutation_in _ (Permutation_sym Hp)). apply in_or_app. left. exact Hw.
  - intros i Hi. destruct (StronglySorted_last Hs Hi) as [-> | H].
    + apply float_ltb_irrefl.
    + apply b64_entry_less_false_dist. exact H.
Qed.

Lemma b64_knn_prune_safe_spec :
  B64.knn_prune_safe DIM pts query = true ->
  forall t i j axis,
    t < length pts -> i < length pts -> j < length pts -> axis < DIM ->
    B64.far_side query (B64.at_ pts t) (B64.at_ pts i) axis = true ->
    PrimFloat.ltb (B64.diff query (B64.at_ pts t) axis)
                  (B64.distance DIM query (B64.at_ pts j)) = false ->
    B64.dist_less DIM pts query i j = false.
Proof.
  intros H t i j axis Ht Hi Hj Ha Hf Hd. unfold B64.knn_prune_safe in H.
  rewrite forallb_forall in H. specialize (H t ltac:(apply in_seq; lia)).
  rewrite forallb_forall in H. specialize (H i ltac:(apply in_seq; lia)).
  rewrite forallb_forall in H. specialize (H j ltac:(apply in_seq; lia)).
  rewrite forallb_forall in H. specialize (H axis ltac:(apply in_seq; lia)).
  rewrite Hf, Hd in H. simpl in H. apply negb_true_iff in H. exact H.
Qed.

Lemma b64_knn_push_entry (k : nat) (kept : list nat) (idx : nat) :
  B64.knn_push (B64.distance DIM query (B64.at_ pts idx), idx)
               (mkQueue k (map (B64.entry DIM pts query) kept))
  = mkQueue k (map (B64.entry DIM pts query)
                   (firstn k (ordered_insert (B64.entry_less DIM pts query) idx kept))).
Proof.
  unfold B64.knn_push. rewrite push_elements. cbn [bound_ elements_].
  change (B64.distance DIM query (B64.at_ pts idx), idx)
    with (B64.entry DIM pts query idx).
  rewrite ordered_insert_map, firstn_map. reflexivity.
Qed.

Lemma b64_knnSearchRecursive_spec (k : nat) (node : Node) :
  0 < k -> B64.kd_inv DIM pts node ->
  (forall i, In i (indices_of node) -> i < length pts) ->
  forall seen kept : list nat,
    B64.topk DIM pts query k seen kept ->
    exists kept',
      B64.knnSearchRecursive DIM pts query node
        (mkQueue k (map (B64.entry DIM pts query) kept)) k
      = Some (mkQueue k (map (B64.entry DIM pts query) kept')) /\
      B64.topk DIM pts query k (seen ++ indices_of node) kept'.
Proof.
  intro Hk. induction node as [| idx n0 IH0 n1 IH1 axis]; intros Hinv Hval seen kept HE.
  - exists kept. simpl. rewrite app_nil_r. split; [reflexivity | assumption].
  - assert (Hnv : forall dir i, In i (indices_of (next n0 n1 dir)) -> i < length pts).
    { intros dir i Hi. apply Hval. simpl. right. apply in_or_app.
      destruct dir; simpl in Hi; auto. }
    assert (IH : forall dir seen kept,
               B64.topk DIM pts query k seen kept ->
               exists kept',
                 B64.knnSearchRecursive DIM pts query (next n0 n1 dir)
                   (mkQueue k (map (B64.entry DIM pts query) kept)) k
                 = Some (mkQueue k (map (B64.entry DIM pts query) kept')) /\
                 B64.topk DIM pts query k (seen ++ indices_of (next n0 n1 dir)) kept').
    { intros dir. pose proof (@b64_kd_inv_next DIM pts idx n0 n1 axis dir Hinv).
      pose proof (Hnv dir).
      destruct dir; simpl in *; auto. }
    clear IH0 IH1.
    pose proof (fun i => @b64_far_side DIM pts query idx n0 n1 axis i Hinv) as Hfar.
    assert (Haxis : axis < DIM) by (destruct Hinv; assumption).
    assert (Hidx : idx < length pts) by (apply Hval; left; reflexivity).
    cbn [B64.knnSearchRecursive].
    set (train := B64.at_ pts idx) in *.
    set (dir := B64.side query train axis) in *.
    pose proof (b64_topk_push Hidx HE) as H1.
    unfold train at 1. rewrite b64_knn_push_entry.
    set (kept1 := firstn k (ordered_insert (B64.entry_less DIM pts query) idx kept)) in *.
    destruct (IH dir _ _ H1) as (kept2 & -> & H2).
    pose proof (@entries_node_perm _ (fun i : nat => i) seen idx n0 n1 axis dir) as HP.
    rewrite !map_id in HP.
    assert (Hgo : exists kept',
               B64.knnSearchRecursive DIM pts query (next n0 n1 (lnot dir))
                 (mkQueue k (map (B64.entry DIM pts query) kept2)) k
               = Some (mkQueue k (map (B64.entry DIM pts query) kept')) /\
               B64.topk DIM pts query k (seen ++ indices_of (mkNode idx n0 n1 axis)) kept').
    { destruct (IH (lnot dir) _ _ H2) as (kept3 & HE3 & H3).
      exists kept3. split; [assumption |]. eapply b64_topk_perm; eassumption. }
    unfold size. cbn [elements_]. rewrite length_map.
    destruct (Nat.ltb_spec (length kept2) k) as [Hlt | Hge]; [exact Hgo |].
    assert (Hfull : length kept2 = k) by (destruct H2 as (_ & _ & ? & _); lia).
    destruct (back (mkQueue k (map (B64.entry DIM pts query) kept2))) as [worst |] eqn:Hb.
    + destruct (PrimFloat.ltb (B64.diff query train axis) (fst worst)) eqn:Hd;
        [exact Hgo |].
      exists kept2. split; [reflexivity |].
      eapply b64_topk_perm; [exact HP |].
      apply b64_topk_skip; [assumption | assumption | apply Hnv |].
      intros Hsafe x i Hx Hi.
      destruct (b64_topk_worst H2 Hb) as (w & -> & Hw & Hwv & Hworst).
      cbn [B64.entry fst] in Hd.
      assert (Hxv : x < length pts) by (eapply Hnv; exact Hx).
      assert (Hiv : i < length pts).
      { destruct H2 as (Hv2 & _ & _ & rest2 & Hp2 & _). apply Hv2.
        apply (Permutation_in _ (Permutation_sym Hp2)). apply in_or_app. left. exact Hi. }
      pose proof (b64_knn_prune_safe_spec Hsafe Hidx Hxv Hwv Haxis (Hfar x Hx) Hd) as Hxw.
      pose proof (Hworst i Hi) as Hwi.
      unfold B64.dist_less in *.
      apply float_ltb_ge_trans with (y := B64.distance DIM query (B64.at_ pts w));
        auto using b64_distance_not_nan.
    + unfold back in Hb. cbn [elements_] in Hb.
      destruct kept2; [simpl in Hfull; lia | discriminate].
Qed.

(** With capacity 0 the queue stays empty, and the first node met reads
    [back()] of the empty queue. *)
Lemma b64_knn_push_zero (e : float * nat) :
  B64.knn_push e (mkQueue 0 []) = mkQueue 0 [].
Proof. unfold B64.knn_push. rewrite push_elements. reflexivity. Qed.

Lemma b64_knnSearchRecursive_zero (node : Node) :
  match node with
  | nullptr =>
      B64.knnSearchRecursive DIM pts query node (mkQueue 0 []) 0 = Some (mkQueue 0 [])
  | mkNode _ _ _ _ =>
      B64.knnSearchRecursive DIM pts query node (mkQueue 0 []) 0 = None
  end.
Proof.
  induction node as [| idx n0 IH0 n1 IH1 axis]; [reflexivity |].
  cbn [B64.knnSearchRecursive]. rewrite b64_knn_push_zero.
  assert (IH : forall dir,
             B64.knnSearchRecursive DIM pts query (next n0 n1 dir) (mkQueue 0 []) 0 = None \/
             B64.knnSearchRecursive DIM pts query (next n0 n1 dir) (mkQueue 0 []) 0
             = Some (mkQueue 0 [])).
  { intros [| d]; cbn [next]; [destruct n0 | destruct n1]; auto. }
  destruct (IH (B64.side query (B64.at_ pts idx) axis)) as [-> | ->]; reflexivity.
Qed.

End B64Knn.

(** ** The functions of the class, in binary64 *)

Section B64Claims.

Variable DIM : nat.
Variable nth_element : list nat -> nat -> (nat -> nat -> bool) -> list nat.

(** X5. [distance] is symmetric, rounding included. *)
Theorem distance_symmetric (p q : B64.Point) :
  B64.distance DIM p q = B64.distance DIM q p.
Proof. unfold B64.distance. rewrite b64_distance_step_sym. reflexivity. Qed.


(** X15. With a radius that is zero or negative [rangequery] returns the
    empty sequence, on every tree. *)
Theorem rangequery_nonpositive_radius (t : B64.KDTree) (query : B64.Point)
        (range : float) :
  PrimFloat.leb range 0 = true -> B64.rangequery DIM t query range = [].
Proof.
  intro H. unfold B64.rangequery. apply b64_rangequeryRecursive_nonpositive. exact H.
Qed.

(** X20. A larger radius never loses a result, on every tree. *)
Theorem rangequery_monotone (t : B64.KDTree) (query : B64.Point) (r1 r2 : float) :
  PrimFloat.leb r1 r2 = true ->
  incl (B64.rangequery DIM t query r1) (B64.rangequery DIM t query r2).
Proof.
  intro Hr. unfold B64.rangequery.
  apply b64_rangequeryRecursive_monotone; [exact Hr | apply incl_refl].
Qed.

(** X17. The content of the uninitialised [guess] shows in the result of
    [nnSearch] only when nothing is written: two calls that differ in
    that content alone either both return it with [DBL_MAX], or return
    the same pair. *)
Theorem nnSearch_guess_matters_only_unwritten
        (t : B64.KDTree) (query : B64.Point) (guess1 guess2 : nat) :
  (B64.nnSearch DIM guess1 t query = (guess1, B64.DBL_MAX) /\
   B64.nnSearch DIM guess2 t query = (guess2, B64.DBL_MAX)) \/
  B64.nnSearch DIM guess1 t query = B64.nnSearch DIM guess2 t query.
Proof. unfold B64.nnSearch. apply b64_nnSearchRecursive_guess. Qed.

(** C7, what the code does. With k = 0 on a tree of at least one point
    the run reaches [queue.back()] on the empty queue, which is
    undefined behaviour: no sequence is returned. *)
Theorem knnSearch_zero_faults (p : B64.Point) (points : list B64.Point)
        (query : B64.Point) :
  B64.knnSearch DIM (B64.build DIM nth_element (p :: points)) query 0 = None.
Proof.
  unfold B64.knnSearch, B64.build. cbn [B64.root_ B64.points_ length seq].
  destruct (b64_buildRecursive_cons DIM nth_element (p :: points) 0
              (seq 1 (length points)) 0) as (idx & n0 & n1 & axis & ->).
  pose proof (@b64_knnSearchRecursive_zero DIM (p :: points) query
                (mkNode idx n0 n1 axis)) as H.
  cbn beta iota in H. rewrite H. reflexivity.
Qed.

(** C8, what the code does. On a tree built from zero points [knnSearch]
    and [rangequery] return empty sequences, but [nnSearch] returns the
    content of the local [guess], which it never wrote: there is no one
    index it returns, so no sentinel; the distance it reports is
    [DBL_MAX], a finite number below +infinity. *)
Theorem nnSearch_empty_tree_no_sentinel (guess0 : nat) (query : B64.Point) (k : nat)
        (range : float) :
  B64.knnSearch DIM (B64.build DIM nth_element []) query k = Some [] /\
  B64.rangequery DIM (B64.build DIM nth_element []) query range = [] /\
  B64.nnSearch DIM guess0 (B64.build DIM nth_element []) query
  = (guess0, B64.DBL_MAX) /\
  PrimFloat.ltb B64.DBL_MAX PrimFloat.infinity = true /\
  ~ (exists sentinel : nat,
        forall guess : nat,
          fst (B64.nnSearch DIM guess (B64.build DIM nth_element []) query) = sentinel).
Proof.
  unfold B64.knnSearch, B64.rangequery, B64.nnSearch, B64.build.
  cbn [B64.root_ B64.points_ length seq]. rewrite b64_buildRecursive_nil.
  cbn [B64.knnSearchRecursive B64.rangequeryRecursive B64.nnSearchRecursive
       elements_ map fst].
  repeat split.
  intros (s & H). pose proof (H 0) as H0. pose proof (H 1) as H1. congruence.
Qed.

Hypothesis nth_element_ok : nth_element_contract nth_element.

(** C1, what the code does. [guess] is written only under
    [dist < *minDist], and [*minDist] starts at [DBL_MAX].  For the set of
    the single point (0) queried at (2^600) the square of the difference
    overflows, the computed distance is +infinity, nothing is written and
    [nnSearch] returns the content of the uninitialised local, whatever it
    is -- although the point lies at Euclidean distance 2^600, below
    [DBL_MAX].  The same happens on the empty set. *)
Theorem nnSearch_unwritten_guess (guess0 : nat) (query : B64.Point) :
  B64.nnSearch 1 guess0 (B64.build 1 nth_element [[0%float]]) [0x1p600%float]
  = (guess0, B64.DBL_MAX) /\
  B64.distance 1 [0x1p600%float] [0%float] = PrimFloat.infinity /\
  (B64.euclid2 1 [0x1p600%float] [0%float]
   < B64.F2Q B64.DBL_MAX * B64.F2Q B64.DBL_MAX)%Q /\
  B64.nnSearch DIM guess0 (B64.build DIM nth_element []) query
  = (guess0, B64.DBL_MAX).
Proof.
  rewrite (@b64_build_single nth_element 0%float nth_element_ok eq_refl).
  split; [vm_compute; reflexivity |]. split; [vm_compute; reflexivity |].
  split; [vm_compute; reflexivity |].
  unfold B64.nnSearch, B64.build. cbn [B64.root_ B64.points_ length seq].
  rewrite b64_buildRecursive_nil. reflexivity.
Qed.

(** X16. When no point of the set has a computed distance below
    [DBL_MAX], [nnSearch] writes nothing: it returns the content of the
    uninitialised [guess] and reports [DBL_MAX]. *)
Theorem nnSearch_nothing_within_DBL_MAX
        (points : list B64.Point) (query : B64.Point) (guess0 : nat) :
  B64.no_nan_coords points = true ->
  (forall j, j < length points ->
             PrimFloat.ltb (B64.distance DIM query (B64.at_ points j)) B64.DBL_MAX = false) ->
  B64.nnSearch DIM guess0 (B64.build DIM nth_element points) query
  = (guess0, B64.DBL_MAX).
Proof.
  intros Hnan Hfar. unfold B64.nnSearch.
  apply b64_nnSearchRecursive_unwritten.
  intros j Hj. apply Hfar.
  apply (@b64_in_build_indices DIM nth_element nth_element_ok points Hnan j). exact Hj.
Qed.

(** [PointT::DIM] is at least 1. *)
Hypothesis DIM_pos : 0 < DIM.

(** X27. In binary64 too, for a point set without NaN coordinate: each
    index sits at exactly one node of the built tree, and at every node
    the pivot is not less than a point of the left subtree, no point of
    the right subtree is less than the pivot, on the node's axis, for [<]
    on [double]. *)
Theorem build_binary64_partition (points : list B64.Point) :
  B64.no_nan_coords points = true ->
  Permutation (indices_of (B64.root_ (B64.build DIM nth_element points)))
              (seq 0 (length points)) /\
  NoDup (indices_of (B64.root_ (B64.build DIM nth_element points))) /\
  B64.kd_inv DIM points (B64.root_ (B64.build DIM nth_element points)).
Proof.
  intro Hnan. split; [apply b64_build_perm; assumption |].
  split; [apply b64_build_nodup; assumption |].
  apply b64_build_kd_inv; assumption.
Qed.



(** X21. Looking up a stored point: queried at a point of the set whose
    coordinates are finite, with a positive radius, [rangequery] returns
    the index of that point. *)
Theorem rangequery_contains_self (points : list B64.Point) (j : nat) (range : float) :
  B64.no_nan_coords points = true ->
  j < length points ->
  B64.finite_coords (B64.at_ points j) = true ->
  PrimFloat.ltb 0 range = true ->
  In j (B64.rangequery DIM (B64.build DIM nth_element points) (B64.at_ points j) range).
Proof.
  intros Hnan Hj Hfin Hr. unfold B64.rangequery.
  change (B64.points_ (B64.build DIM nth_element points)) with points.
  apply b64_rangequeryRecursive_finds.
  - apply b64_build_kd_inv; assumption.
  - apply (@b64_in_build_indices DIM nth_element nth_element_ok points Hnan j). exact Hj.
  - rewrite b64_distance_self by exact Hfin. exact Hr.
  - intros t axis Hfar. unfold B64.far_side in Hfar. unfold B64.diff.
    destruct (PrimFloat.ltb (B64.coord (B64.at_ points j) axis)
                            (B64.coord (B64.at_ points t) axis)) eqn:E1.
    + simpl in Hfar. discriminate.
    + apply negb_true_iff in Hfar.
      rewrite (@float_abs_sub_equal _ _ (b64_coord_finite _ axis Hfin)
                 (@b64_coord_not_nan points t axis Hnan) E1 Hfar).
      exact Hr.
Qed.

(** X18. Looking up a stored point: queried at a point of the set whose
    coordinates are finite, [nnSearch] returns a valid index, reports the
    computed distance of that index, and this distance compares equal to
    zero.  The index need not be the one queried: another point may be
    at computed distance zero as well. *)
Theorem nnSearch_exact_hit (points : list B64.Point) (j guess0 : nat) :
  B64.no_nan_coords points = true ->
  j < length points ->
  B64.finite_coords (B64.at_ points j) = true ->
  let r := B64.nnSearch DIM guess0 (B64.build DIM nth_element points)
                        (B64.at_ points j) in
  fst r < length points /\
  snd r = B64.distance DIM (B64.at_ points j) (B64.at_ points (fst r)) /\
  PrimFloat.ltb 0 (snd r) = false /\ PrimFloat.ltb (snd r) 0 = false.
Proof.
  intros Hnan Hj Hfin r.
  assert (Hz : PrimFloat.ltb 0 (snd r) = false).
  { unfold r, B64.nnSearch.
    change (B64.points_ (B64.build DIM nth_element points)) with points.
    apply b64_nnSearchRecursive_reaches_zero with (j := j).
    - apply b64_build_kd_inv; assumption.
    - apply (@b64_in_build_indices DIM nth_element nth_element_ok points Hnan j). exact Hj.
    - apply b64_distance_self. exact Hfin.
    - intros t axis Hfar. unfold B64.far_side in Hfar. unfold B64.diff.
      destruct (PrimFloat.ltb (B64.coord (B64.at_ points j) axis)
                              (B64.coord (B64.at_ points t) axis)) eqn:E1.
      + simpl in Hfar. discriminate.
      + apply negb_true_iff in Hfar.
        apply (@float_abs_sub_equal _ _ (b64_coord_finite _ axis Hfin)
                 (@b64_coord_not_nan points t axis Hnan) E1 Hfar). }
  destruct (b64_nnSearchRecursive_result DIM points (B64.at_ points j)
              (B64.root_ (B64.build DIM nth_element points)) guess0 B64.DBL_MAX)
    as [E | (Hin & He & Hlt)].
  - exfalso. unfold r, B64.nnSearch in Hz.
    change (B64.points_ (B64.build DIM nth_element points)) with points in Hz.
    rewrite E in Hz. vm_compute in Hz. discriminate.
  - change (B64.nnSearchRecursive DIM points (B64.at_ points j)
              (B64.root_ (B64.build DIM nth_element points)) guess0 B64.DBL_MAX)
      with r in Hin, He.
    split; [apply (@b64_in_build_indices DIM nth_element nth_element_ok points Hnan);
            exact Hin |].
    split; [exact He |]. split; [exact Hz |].
    rewrite He. unfold B64.distance. apply float_sqrt_not_below. reflexivity.
Qed.

End B64Claims.

(** ** Runs in binary64 *)

(** The scenario used below: six points of the plane. *)
Example build_six :
  B64.build 2 nth_element_by_sorting
            [[2; 3]; [5; 4]; [9; 6]; [4; 7]; [8; 1]; [7; 2]]%float
  = B64.mkKDTree
      (mkNode 1 (mkNode 0 nullptr (mkNode 3 nullptr nullptr 0) 1)
              (mkNode 5 (mkNode 4 nullptr nullptr 0) (mkNode 2 nullptr nullptr 0) 1) 0)
      [[2; 3]; [5; 4]; [9; 6]; [4; 7]; [8; 1]; [7; 2]]%float.
Proof. vm_compute. reflexivity. Qed.

Example searches_six :
  let t := B64.build 2 nth_element_by_sorting
                     [[2; 3]; [5; 4]; [9; 6]; [4; 7]; [8; 1]; [7; 2]]%float in
  B64.nnSearch 2 77 t [9; 2]%float = (4, B64.distance 2 [9; 2]%float [8; 1]%float) /\
  B64.knnSearch 2 t [9; 2]%float 3 = Some [4; 5; 2] /\
  B64.rangequery 2 t [9; 2]%float 3 = [5; 4].
Proof. repeat split; vm_compute; reflexivity. Qed.

(** X7. The distances [distance] computes do not obey the triangle
    inequality: from (0,0) to (4,4) it computes more than the sum of what
    it computes from (0,0) to (1,1) and from (1,1) to (4,4). *)
Theorem distance_triangle_rounding :
  PrimFloat.ltb
    (B64.distance 2 [0; 0]%float [1; 1]%float + B64.distance 2 [1; 1]%float [4; 4]%float)
    (B64.distance 2 [0; 0]%float [4; 4]%float) = true.
Proof. vm_compute. reflexivity. Qed.

(** X8. The bound the pruning tests rely on fails under underflow: the
    distance computed from (0) to (2^-600) is 0, below the difference
    [fabs(query[axis] - train[axis])] = 2^-600 on the axis, and it is 0
    although the two points differ. *)
Theorem distance_below_axis_difference :
  B64.distance 1 [0%float] [0x1p-600%float] = 0%float /\
  B64.diff [0%float] [0x1p-600%float] 0 = 0x1p-600%float /\
  PrimFloat.ltb (B64.distance 1 [0%float] [0x1p-600%float])
                (B64.diff [0%float] [0x1p-600%float] 0) = true.
Proof. repeat split; vm_compute; reflexivity. Qed.

(** ** Where the claims about the searches fail as stated *)



(** ** The hypotheses of the binary64 theorems are met *)

Lemma nnSearch_unwritten_guess_witness :
  nth_element_contract nth_element_by_sorting /\
  B64.nnSearch 1 5 (B64.build 1 nth_element_by_sorting [[0%float]]) [0x1p600%float]
  = (5, B64.DBL_MAX) /\
  ~ 5 < length [[0%float]].
Proof.
  split; [exact nth_element_by_sorting_ok |].
  split; [| simpl; lia].
  apply (@nnSearch_unwritten_guess 1 nth_element_by_sorting nth_element_by_sorting_ok
           5 [0%float]).
Defined.




Lemma rangequery_nonpositive_radius_witness :
  PrimFloat.leb (-0)%float 0 = true /\
  B64.rangequery 1 (B64.mkKDTree (mkNode 0 nullptr nullptr 0) [[0%float]])
                 [0%float] (-0)%float = [].
Proof.
  split; [vm_compute; reflexivity |].
  apply (@rangequery_nonpositive_radius 1). vm_compute. reflexivity.
Defined.

Lemma rangequery_monotone_witness :
  PrimFloat.leb 1 2 = true /\
  incl (B64.rangequery 1 (B64.build 1 nth_element_by_sorting
                                    [[0%float]; [3%float]; [1%float]]) [0%float] 1)
       (B64.rangequery 1 (B64.build 1 nth_element_by_sorting
                                    [[0%float]; [3%float]; [1%float]]) [0%float] 2).
Proof.
  split; [vm_compute; reflexivity |].
  apply (@rangequery_monotone 1). vm_compute. reflexivity.
Defined.

Lemma nnSearch_nothing_within_DBL_MAX_witness :
  nth_element_contract nth_element_by_sorting /\
  B64.no_nan_coords [[0%float]] = true /\
  (forall j, j < length [[0%float]] ->
             PrimFloat.ltb (B64.distance 1 [0x1p600%float] (B64.at_ [[0%float]] j))
                           B64.DBL_MAX = false) /\
  B64.nnSearch 1 5 (B64.build 1 nth_element_by_sorting [[0%float]]) [0x1p600%float]
  = (5, B64.DBL_MAX).
Proof.
  assert (H : forall j, j < length [[0%float]] ->
                        PrimFloat.ltb (B64.distance 1 [0x1p600%float]
                                                    (B64.at_ [[0%float]] j))
                                      B64.DBL_MAX = false).
  { intros j Hj. cbn [length] in Hj. replace j with 0 by lia. vm_compute. reflexivity. }
  split; [exact nth_element_by_sorting_ok |]. split; [vm_compute; reflexivity |].
  split; [exact H |].
  exact (@nnSearch_nothing_within_DBL_MAX 1 nth_element_by_sorting
           nth_element_by_sorting_ok [[0%float]] [0x1p600%float] 5 eq_refl H).
Defined.

Lemma build_binary64_partition_witness :
  nth_element_contract nth_element_by_sorting /\ 0 < 2 /\
  B64.no_nan_coords [[2; 3]; [5; 4]; [9; 6]; [4; 7]; [8; 1]; [7; 2]]%float = true /\
  NoDup (indices_of (B64.root_ (B64.build 2 nth_element_by_sorting
                                  [[2; 3]; [5; 4]; [9; 6]; [4; 7]; [8; 1]; [7; 2]]%float))).
Proof.
  split; [exact nth_element_by_sorting_ok |]. split; [lia |].
  split; [vm_compute; reflexivity |].
  apply (@build_binary64_partition 2 nth_element_by_sorting nth_element_by_sorting_ok
           ltac:(lia) [[2; 3]; [5; 4]; [9; 6]; [4; 7]; [8; 1]; [7; 2]]%float).
  vm_compute. reflexivity.
Defined.

Lemma rangequery_contains_self_witness :
  nth_element_contract nth_element_by_sorting /\ 0 < 1 /\
  B64.no_nan_coords [[0%float]; [3%float]; [1%float]] = true /\
  1 < length [[0%float]; [3%float]; [1%float]] /\
  B64.finite_coords (B64.at_ [[0%float]; [3%float]; [1%float]] 1) = true /\
  PrimFloat.ltb 0 1 = true /\
  In 1 (B64.rangequery 1 (B64.build 1 nth_element_by_sorting
                                    [[0%float]; [3%float]; [1%float]])
                       (B64.at_ [[0%float]; [3%float]; [1%float]] 1) 1).
Proof.
  split; [exact nth_element_by_sorting_ok |]. split; [lia |].
  split; [vm_compute; reflexivity |]. split; [simpl; lia |].
  split; [vm_compute; reflexivity |]. split; [vm_compute; reflexivity |].
  apply (@rangequery_contains_self 1 nth_element_by_sorting nth_element_by_sorting_ok
           ltac:(lia) [[0%float]; [3%float]; [1%float]] 1 1%float);
    [vm_compute; reflexivity | simpl; lia | vm_compute; reflexivity
     | vm_compute; reflexivity].
Defined.

Lemma nnSearch_exact_hit_witness :
  nth_element_contract nth_element_by_sorting /\ 0 < 1 /\
  B64.no_nan_coords [[0%float]; [3%float]; [1%float]] = true /\
  1 < length [[0%float]; [3%float]; [1%float]] /\
  B64.finite_coords (B64.at_ [[0%float]; [3%float]; [1%float]] 1) = true /\
  fst (B64.nnSearch 1 7 (B64.build 1 nth_element_by_sorting
                                   [[0%float]; [3%float]; [1%float]])
                    (B64.at_ [[0%float]; [3%float]; [1%float]] 1))
  < length [[0%float]; [3%float]; [1%float]].
Proof.
  split; [exact nth_element_by_sorting_ok |]. split; [lia |].
  split; [vm_compute; reflexivity |]. split; [simpl; lia |].
  split; [vm_compute; reflexivity |].
  apply (@nnSearch_exact_hit 1 nth_element_by_sorting nth_element_by_sorting_ok
           ltac:(lia) [[0%float]; [3%float]; [1%float]] 1 7);
    [vm_compute; reflexivity | simpl; lia | vm_compute; reflexivity].
Defined.
